(** * find_large_rs: the large-file report of scripts/find_large_rs.py

    A shallow embedding of the script and of the parts of Python's
    builtins and of pathlib (POSIX flavour) that it calls, followed by the
    properties of the report.

    - Python [str] used for path components and for the output is a
      [string]; comparison is by character code, as in Python.
    - The text of a file is a list of Unicode code points ([N]), because
      [str.splitlines] knows line boundaries beyond Latin-1.
    - Python [int] is [Z].
    - An exception is a value of [exn]; code that can raise returns a
      [result]. *)

From Stdlib Require Import List ZArith NArith Lia Bool Ascii String.
From Stdlib Require Import Sorting.Sorted Permutation DecimalString.
Import ListNotations.

Local Open Scope string_scope.
Local Open Scope list_scope.
Local Open Scope Z_scope.

(** ** Exceptions *)

Inductive exn : Type :=
| OSError
| UnicodeDecodeError
| ValueError.

Inductive result (A : Type) : Type :=
| Ok (a : A)
| Raise (e : exn).

Arguments Ok {A} a.
Arguments Raise {A} e.

Definition bind {A B : Type} (c : result A) (k : A -> result B) : result B :=
  match c with
  | Ok a => k a
  | Raise e => Raise e
  end.

Notation "x <- c ;; k" := (bind c (fun x => k))
  (at level 61, c at next level, right associativity).

(** [try: body / except Exception: pass], where the state the body would
    have produced is dropped in favour of the state before it. *)
Definition except_pass {A : Type} (body : result A) (before : A) : result A :=
  match body with
  | Ok a => Ok a
  | Raise _ => Ok before
  end.

(** ** Python builtins *)

Definition nl : string := String (ascii_of_nat 10) EmptyString.

(** [print(s)] on the standard output accumulated so far. *)
Definition print (stdout s : string) : string :=
  (stdout ++ s ++ nl)%string.

(** [str(n)] for an [int]. *)
Definition str_int (n : Z) : string :=
  NilZero.string_of_int (Z.to_int n).

Fixpoint spaces (n : nat) : string :=
  match n with
  | O => EmptyString
  | S k => String " "%char (spaces k)
  end.

(** The format specification [:>w]: right-aligned in a field of minimum
    width [w], padded with spaces. *)
Definition rjust (w : nat) (s : string) : string :=
  (spaces (w - String.length s) ++ s)%string.

(** [sub in s] for two [str]. *)
Fixpoint str_contains (sub s : string) : bool :=
  String.prefix sub s ||
  match s with
  | EmptyString => false
  | String _ s' => str_contains sub s'
  end.

(** [s.endswith(suffix)]. *)
Definition str_endswith (s suffix : string) : bool :=
  (String.length suffix <=? String.length s)%nat &&
  String.eqb
    (String.substring (String.length s - String.length suffix)
                      (String.length suffix) s)
    suffix.

(** [x in t] for a tuple of [str]. *)
Definition tuple_contains (x : string) (t : list string) : bool :=
  existsb (String.eqb x) t.

(** [sep.join(l)]. *)
Fixpoint join (sep : string) (l : list string) : string :=
  match l with
  | [] => EmptyString
  | [a] => a
  | a :: t => (a ++ sep ++ join sep t)%string
  end.

(** Comparison of two sequences, as Python compares lists, tuples and
    [str]: the first unequal pair decides, and a proper prefix is
    smaller. *)
Fixpoint seq_compare {A : Type} (cmp : A -> A -> comparison)
    (p q : list A) : comparison :=
  match p, q with
  | [], [] => Eq
  | [], _ :: _ => Lt
  | _ :: _, [] => Gt
  | a :: p', b :: q' =>
      match cmp a b with
      | Eq => seq_compare cmp p' q'
      | c => c
      end
  end.

(** What the proofs need of a three-way comparison. *)
Record TotalOrder {A : Type} (cmp : A -> A -> comparison) : Prop := {
  cmp_eq : forall x y, cmp x y = Eq <-> x = y;
  cmp_opp : forall x y, cmp y x = CompOpp (cmp x y);
  cmp_lt_trans : forall x y z, cmp x y = Lt -> cmp y z = Lt -> cmp x z = Lt
}.

(** Two tuples of [str]. *)
Definition parts_compare (p q : list string) : comparison :=
  seq_compare String.compare p q.

(** [list.sort] and [sorted] are stable and call only [<]: each element
    goes before the first element of the sorted rest that is not smaller
    than it. *)
Fixpoint insort {A : Type} (lt : A -> A -> bool) (x : A) (l : list A)
  : list A :=
  match l with
  | [] => [x]
  | y :: t => if lt y x then y :: insort lt x t else x :: y :: t
  end.

Definition sorted {A : Type} (lt : A -> A -> bool) (l : list A) : list A :=
  fold_right (insort lt) [] l.

(** [l.sort(key=key)] with an [int] key. *)
Definition sort_key {A : Type} (key : A -> Z) (l : list A) : list A :=
  sorted (fun a b => key a <? key b) l.

(** *** Text: [str.splitlines] and universal newlines *)

Definition codepoint : Type := N.
Definition text : Type := list codepoint.

Definition LF : codepoint := 10%N.
Definition CR : codepoint := 13%N.

(** The line boundaries of [str.splitlines]: LF, VT, FF, CR, FS, GS, RS,
    NEL, LINE SEPARATOR and PARAGRAPH SEPARATOR. *)
Definition is_linebreak (c : codepoint) : bool :=
  existsb (N.eqb c)
    [10; 11; 12; 13; 28; 29; 30; 133; 8232; 8233]%N.

(** [splitlines_from cur s]: [cur] is the line being read, reversed. A CR
    directly followed by LF is one boundary; text after the last boundary
    is a line only when it is not empty. *)
Fixpoint splitlines_from (cur : text) (s : text) : list text :=
  match s with
  | [] =>
      match cur with
      | [] => []
      | _ :: _ => [rev cur]
      end
  | c :: rest =>
      if is_linebreak c then
        rev cur ::
        match rest with
        | d :: rest' =>
            if (c =? CR)%N && (d =? LF)%N
            then splitlines_from [] rest'
            else splitlines_from [] rest
        | [] => splitlines_from [] rest
        end
      else splitlines_from (c :: cur) rest
  end.

Definition splitlines (s : text) : list text := splitlines_from [] s.

(** Reading in text mode with [newline=None]: CR LF and a lone CR are
    both delivered as LF. *)
Fixpoint universal_newlines (s : text) : text :=
  match s with
  | [] => []
  | c :: rest =>
      if (c =? CR)%N then
        LF ::
        match rest with
        | d :: rest' =>
            if (d =? LF)%N
            then universal_newlines rest'
            else universal_newlines rest
        | [] => universal_newlines rest
        end
      else c :: universal_newlines rest
  end.

(** ** pathlib, POSIX flavour *)

(** A path is its anchor (["/"] or empty) and its components. *)
Record Path : Type := mkPath {
  anchor : string;
  tail : list string
}.

(** [path.parts] *)
Definition parts (p : Path) : list string :=
  if String.eqb (anchor p) "" then tail p else anchor p :: tail p.

(** [path.name] *)
Definition name (p : Path) : string := last (tail p) "".

(** [path.parent]; a path without components is its own parent. *)
Definition parent (p : Path) : Path :=
  mkPath (anchor p) (removelast (tail p)).

(** [str(path)] *)
Definition path_str (p : Path) : string :=
  match tail p with
  | [] => if String.eqb (anchor p) "" then "." else anchor p
  | _ :: _ => (anchor p ++ join "/" (tail p))%string
  end.

(** [dir / rel] for a relative sequence of components [rel]. *)
Definition joinpath (dir : Path) (rel : list string) : Path :=
  mkPath (anchor dir) (tail dir ++ rel).

(** [p < q]: pathlib orders paths by their sequences of components. *)
Definition path_lt (p q : Path) : bool :=
  match parts_compare (parts p) (parts q) with
  | Lt => true
  | _ => false
  end.

Fixpoint strip_prefix (pre l : list string) : option (list string) :=
  match pre, l with
  | [], _ => Some l
  | _ :: _, [] => None
  | a :: pre', b :: l' =>
      if String.eqb a b then strip_prefix pre' l' else None
  end.

(** [path.relative_to(other)] raises [ValueError] unless [other] is an
    ancestor of [path]. *)
Definition relative_to (p other : Path) : result Path :=
  if String.eqb (anchor p) (anchor other) then
    match strip_prefix (tail other) (tail p) with
    | Some rel => Ok (mkPath "" rel)
    | None => Raise ValueError
    end
  else Raise ValueError.

(** ** The file system the script runs on *)

Record FileSystem : Type := mkFS {
  (** [__file__], the location of the script *)
  script_file : Path;
  (** every entry below a directory, as components relative to it, in
      the order the operating system lists them *)
  walk : Path -> list (list string);
  (** the decoded UTF-8 content of a file; opening, reading and decoding
      can each raise *)
  read_utf8 : Path -> result text
}.

(** [dir.rglob("*.rs")] *)
Definition rglob_rs (fs : FileSystem) (dir : Path) : list Path :=
  map (joinpath dir)
      (filter (fun rel => str_endswith (last rel "") ".rs") (walk fs dir)).

(** [path.read_text(encoding="utf-8")] *)
Definition read_text (fs : FileSystem) (p : Path) : result text :=
  s <- read_utf8 fs p ;;
  Ok (universal_newlines s).

(** ** scripts/find_large_rs.py *)

(** An element of [large_files]: the path relative to the root, and the
    line count. *)
Definition entry : Type := (Path * Z)%type.

(** The condition of the [if ...: continue] at the head of the loop. *)
Definition skipped (path : Path) : bool :=
  tuple_contains "target" (parts path)
  || tuple_contains "test" (parts path)
  || str_contains "test.rs" (name path)
  || String.eqb (name path) "bindings.rs".

(** [len(content.splitlines())] *)
Definition loc_of (content : text) : Z :=
  Z.of_nat (List.length (splitlines content)).

(** The body of the [try]. *)
Definition try_body (fs : FileSystem) (root : Path) (max_size : Z)
    (path : Path) (large_files : list entry) : result (list entry) :=
  content <- read_text fs path ;;
  let loc := loc_of content in
  if max_size <=? loc then
    rel <- relative_to path root ;;
    Ok (large_files ++ [(rel, loc)])
  else Ok large_files.

(** [for path in rust_files: ...] *)
Fixpoint for_paths (fs : FileSystem) (root : Path) (max_size : Z)
    (rust_files : list Path) (large_files : list entry)
  : result (list entry) :=
  match rust_files with
  | [] => Ok large_files
  | path :: rest =>
      if skipped path then for_paths fs root max_size rest large_files
      else
        large_files' <-
          except_pass (try_body fs root max_size path large_files)
                      large_files ;;
        for_paths fs root max_size rest large_files'
  end.

(** The script up to and including [large_files.sort(...)]: the sorted
    result list. *)
Definition scan (fs : FileSystem) (max_size : Z) : result (list entry) :=
  let root := parent (parent (script_file fs)) in
  let rust_files := sorted path_lt (rglob_rs fs root) in
  large_files <- for_paths fs root max_size rust_files [] ;;
  Ok (sort_key (fun x => - snd x) large_files).

(** One line of the report, [f"  {loc:>5} lines  {path}"]. *)
Definition entry_line (e : entry) : string :=
  ("  " ++ rjust 5 (str_int (snd e)) ++ " lines  " ++ path_str (fst e))%string.

(** The rest of the script: what it writes to the standard output. *)
Definition report (max_size : Z) (large_files : list entry) : string :=
  match large_files with
  | [] =>
      print "" ("No Rust files with " ++ str_int max_size ++ "+ LOC found.")
  | _ :: _ =>
      let stdout :=
        print ""
          ("Rust files with " ++ str_int max_size ++ "+ LOC ("
           ++ str_int (Z.of_nat (List.length large_files)) ++ " files):" ++ nl)
      in
      fold_left (fun out e => print out (entry_line e)) large_files stdout
  end.

(** [def main(max_size: int = 500)]; [None] is a call without the
    argument. *)
Definition main (fs : FileSystem) (max_size : option Z) : result string :=
  let max_size :=
    match max_size with
    | Some n => n
    | None => 500
    end in
  large_files <- scan fs max_size ;;
  Ok (report max_size large_files).

(** [if __name__ == "__main__": main()] *)
Definition script (fs : FileSystem) : result string := main fs None.

(** ** The loop as a function

    [kept] is what one turn of the loop adds to [large_files], and
    [collect] is the list the loop builds; [for_paths_collect] below shows
    that the loop computes it. *)

Definition kept (fs : FileSystem) (root : Path) (max_size : Z) (path : Path)
  : option entry :=
  if skipped path then None
  else
    match read_text fs path with
    | Raise _ => None
    | Ok content =>
        if max_size <=? loc_of content then
          match relative_to path root with
          | Ok rel => Some (rel, loc_of content)
          | Raise _ => None
          end
        else None
    end.

Fixpoint collect (fs : FileSystem) (root : Path) (max_size : Z)
    (rust_files : list Path) : list entry :=
  match rust_files with
  | [] => []
  | path :: rest =>
      match kept fs root max_size path with
      | Some e => e :: collect fs root max_size rest
      | None => collect fs root max_size rest
      end
  end.

(** The anchor directory, [Path(__file__).parent.parent]. *)
Definition root_of (fs : FileSystem) : Path :=
  parent (parent (script_file fs)).

Definition large_files (fs : FileSystem) (max_size : Z) : list entry :=
  sort_key (fun x => - snd x)
    (collect fs (root_of fs) max_size
       (sorted path_lt (rglob_rs fs (root_of fs)))).

(** The absolute path of an entry of the result list. *)
Definition full_path (root : Path) (e : entry) : Path :=
  joinpath root (tail (fst e)).

(** ** The exclusion rules as the specification words them

    A component equal to the build-output directory name, a component
    equal to the test directory name, a base name with [test] directly
    before the extension, or the base name of the generated bindings. *)
Definition exclusion_rule (p : Path) : Prop :=
  In "target" (parts p) \/
  In "test" (parts p) \/
  (exists stem, name p = (stem ++ "test" ++ ".rs")%string) \/
  name p = "bindings.rs".

(** ** The order of the result list

    [listed_before root a b]: entry [a] may stand before entry [b] in the
    result list. The count of [a] is not smaller, and with equal counts
    the path of [b] is not smaller than the path of [a] in pathlib's
    order. *)
Definition listed_before (root : Path) (a b : entry) : Prop :=
  snd b <= snd a /\
  (snd a = snd b -> path_lt (full_path root b) (full_path root a) = false).

(** The tie-break as the specification words it: with equal counts, the
    full path strings are in lexicographic order. *)
Definition listed_before_by_string (root : Path) (a b : entry) : Prop :=
  snd b <= snd a /\
  (snd a = snd b ->
   String.leb (path_str (full_path root a)) (path_str (full_path root b))
   = true).

(** ** Line counting as the specification words it

    Split on the newline character alone; text after the last newline is
    a segment only when it is not empty. *)
Fixpoint split_newline_from (cur : text) (s : text) : list text :=
  match s with
  | [] =>
      match cur with
      | [] => []
      | _ :: _ => [rev cur]
      end
  | c :: rest =>
      if (c =? LF)%N
      then rev cur :: split_newline_from [] rest
      else split_newline_from (c :: cur) rest
  end.

Definition newline_segments (s : text) : list text :=
  split_newline_from [] s.

(** The text of a report line before [ lines  ]: the indentation and the
    field of the count. *)
Definition count_field (e : entry) : string :=
  ("  " ++ rjust 5 (str_int (snd e)))%string.

(** ** A file system without its unreadable files *)

Definition readable (fs : FileSystem) (p : Path) : bool :=
  match read_text fs p with
  | Ok _ => true
  | Raise _ => false
  end.

Definition without_unreadable (fs : FileSystem) : FileSystem :=
  mkFS (script_file fs)
       (fun dir => filter (fun rel => readable fs (joinpath dir rel))
                          (walk fs dir))
       (read_utf8 fs).

(** Sortedness with a tie-break: [a] may precede [b] when [b] is not
    smaller and, if neither is smaller, [tie a b]. *)
Definition precedes {A : Type} (lt : A -> A -> bool) (tie : A -> A -> Prop)
    (a b : A) : Prop :=
  lt b a = false /\ (lt a b = false -> tie a b).

(** ** Fixtures: small file systems *)

Definition text_of_string (s : string) : text :=
  map N_of_ascii (list_ascii_of_string s).

(** A text of [n] empty lines. *)
Definition blank_lines (n : nat) : text := repeat LF n.

Definition script_at (dir : list string) : Path :=
  mkPath "/" (dir ++ ["scripts"; "find_large_rs.py"]).

Fixpoint lookup_file (files : list (list string * result text))
    (rel : list string) : result text :=
  match files with
  | [] => Raise OSError
  | (r, c) :: rest =>
      if list_eq_dec string_dec r rel then c else lookup_file rest rel
  end.

(** The project at [/dir] with the given files, listed in the given
    order. *)
Definition project (dir : list string)
    (files : list (list string * result text)) : FileSystem :=
  mkFS (script_at dir)
       (fun _ => map fst files)
       (fun p =>
          match strip_prefix dir (tail p) with
          | Some rel => lookup_file files rel
          | None => Raise OSError
          end).

Definition fs_sizes : FileSystem :=
  project ["proj"]
    [ (["src"; "small.rs"], Ok (blank_lines 499));
      (["src"; "mid.rs"], Ok (blank_lines 500));
      (["README.md"], Ok (blank_lines 900));
      (["src"; "locked.rs"], Raise OSError);
      (["src"; "big.rs"], Ok (blank_lines 600));
      (["target"; "debug"; "gen.rs"], Ok (blank_lines 700));
      (["src"; "parser_test.rs"], Ok (blank_lines 800));
      (["src"; "bindings.rs"], Ok (blank_lines 900)) ].

(** Two crates whose names share a prefix, each with a one-line file. *)
Definition fs_ties : FileSystem :=
  project ["proj"]
    [ (["a-b"; "x.rs"], Ok (text_of_string "fn f() {}"));
      (["a"; "x.rs"], Ok (text_of_string "fn g() {}")) ].

(** A file with a form feed between two declarations, on one line. *)
Definition form_feed_text : text := [97; 12; 98]%N.

(** The same with a record separator (U+001E). *)
Definition record_separator_text : text := [97; 30; 98]%N.

Definition fs_form_feed : FileSystem :=
  project ["proj"]
    [ (["page.rs"], Ok form_feed_text);
      (["records.rs"], Ok record_separator_text) ].

(** A checkout below a directory called [target]. *)
Definition fs_in_target : FileSystem :=
  project ["home"; "target"; "proj"]
    [ (["src"; "lib.rs"], Ok (blank_lines 700));
      (["main.rs"], Ok (blank_lines 3)) ].

(** ** Notions for the further properties *)

(** What the loop learns from a file: its line count, or nothing when
    the read raises. *)
Definition line_count (fs : FileSystem) (p : Path) : option Z :=
  match read_text fs p with
  | Ok content => Some (loc_of content)
  | Raise _ => None
  end.

(** A candidate that the loop keeps: not skipped, readable, with at least
    [T] lines. *)
Definition qualifies (fs : FileSystem) (T : Z) (p : Path) : bool :=
  negb (skipped p) &&
  match line_count fs p with
  | Some n => T <=? n
  | None => false
  end.

(** The number of line-boundary characters of a text. *)
Definition count_breaks (t : text) : nat :=
  List.length (filter is_linebreak t).

(** The same tree listed in another order, and the same tree with other
    file contents. *)
Definition with_walk (fs : FileSystem) (walk' : Path -> list (list string))
  : FileSystem :=
  mkFS (script_file fs) walk' (read_utf8 fs).

Definition with_read (fs : FileSystem) (read' : Path -> result text)
  : FileSystem :=
  mkFS (script_file fs) (walk fs) read'.

(** The files of [fs_sizes] with every skipped file unreadable and every
    other file filled with form feeds instead of newlines. *)
Definition read_sizes_altered (p : Path) : result text :=
  if skipped p then Raise OSError
  else
    match read_utf8 fs_sizes p with
    | Ok t => Ok (map (fun _ => 12%N) t)
    | Raise e => Raise e
    end.

(** ** Line boundaries and newlines

    The text as [read_text] delivers it, with every line boundary that
    is left written as a newline. *)
Definition as_newline (c : codepoint) : codepoint :=
  if is_linebreak c then LF else c.

Definition boundaries_as_newlines (s : text) : text :=
  map as_newline (universal_newlines s).

(** A stray boundary: a line boundary other than LF and CR LF that is
    not the last character of the text. *)
Fixpoint stray_boundary (s : text) : bool :=
  match s with
  | [] => false
  | c :: rest =>
      if (c =? CR)%N then
        match rest with
        | [] => false
        | d :: rest' => if (d =? LF)%N then stray_boundary rest' else true
        end
      else if (c =? LF)%N || negb (is_linebreak c) then stray_boundary rest
      else
        match rest with
        | [] => false
        | _ :: _ => true
        end
  end.

(** Whether a line is open: [1] when characters have been read since the
    last boundary. *)
Definition open_line (cur : text) : nat :=
  match cur with
  | [] => 0
  | _ :: _ => 1
  end.

(** The ways a text can start, as [splitlines] reads it. *)
Inductive head_shape : text -> Prop :=
| shape_nil : head_shape []
| shape_crlf s : head_shape (CR :: LF :: s)
| shape_cr_last : head_shape [CR]
| shape_cr d s : d <> LF -> head_shape (CR :: d :: s)
| shape_lf s : head_shape (LF :: s)
| shape_other c s :
    is_linebreak c = true -> c <> CR -> c <> LF -> head_shape (c :: s)
| shape_char c s : is_linebreak c = false -> head_shape (c :: s).

(** Two lines with CR LF endings. *)
Definition crlf_text : text := [97; 13; 10; 98; 13; 10]%N.

(** A tree whose path order is not its order by size. *)
Definition fs_unsorted : FileSystem :=
  project ["proj"]
    [ (["a.rs"], Ok (blank_lines 500));
      (["b.rs"], Ok (blank_lines 700));
      (["c.rs"], Ok (blank_lines 600)) ].

(** * Properties *)

(** ** Orders given by a three-way comparison *)

Section SeqCompare.
Context {A : Type} (cmp : A -> A -> comparison).
Hypothesis cmp_total : TotalOrder cmp.

Lemma seq_compare_eq (p q : list A) : seq_compare cmp p q = Eq <-> p = q.
Proof.
  revert q; induction p as [|a p IH]; intros [|b q]; simpl;
    try (split; congruence).
  destruct (cmp a b) eqn:E.
  - apply (cmp_eq cmp cmp_total) in E; subst b.
    rewrite IH; split; congruence.
  - split; [discriminate|].
    intros H; injection H as <- _.
    assert (cmp a a = Eq) by (apply (cmp_eq cmp cmp_total); reflexivity).
    congruence.
  - split; [discriminate|].
    intros H; injection H as <- _.
    assert (cmp a a = Eq) by (apply (cmp_eq cmp cmp_total); reflexivity).
    congruence.
Qed.

Lemma seq_compare_opp (p q : list A) :
  seq_compare cmp q p = CompOpp (seq_compare cmp p q).
Proof.
  revert q; induction p as [|a p IH]; intros [|b q]; simpl; try reflexivity.
  rewrite (cmp_opp cmp cmp_total a b).
  destruct (cmp a b); simpl; auto.
Qed.

Lemma seq_compare_lt_trans (p q r : list A) :
  seq_compare cmp p q = Lt -> seq_compare cmp q r = Lt ->
  seq_compare cmp p r = Lt.
Proof.
  revert q r; induction p as [|a p IH]; intros [|b q] [|c r]; simpl;
    try congruence.
  destruct (cmp a b) eqn:Eab; try discriminate.
  - apply (cmp_eq cmp cmp_total) in Eab; subst b.
    destruct (cmp a c); try congruence. apply IH.
  - intros _.
    destruct (cmp b c) eqn:Ebc; try discriminate.
    + apply (cmp_eq cmp cmp_total) in Ebc; subst c.
      rewrite Eab; reflexivity.
    + rewrite (cmp_lt_trans cmp cmp_total a b c Eab Ebc); reflexivity.
Qed.

Lemma seq_compare_total : TotalOrder (seq_compare cmp).
Proof.
  constructor.
  - apply seq_compare_eq.
  - apply seq_compare_opp.
  - apply seq_compare_lt_trans.
Qed.

(** Two sequences that start with the same elements compare as their
    remainders do. *)
Lemma seq_compare_app (l p q : list A) :
  seq_compare cmp (l ++ p) (l ++ q) = seq_compare cmp p q.
Proof.
  induction l as [|a l IH]; simpl; auto.
  assert (E : cmp a a = Eq) by (apply (cmp_eq cmp cmp_total); reflexivity).
  rewrite E; exact IH.
Qed.
End SeqCompare.

Section OrderFacts.
Context {A : Type} (cmp : A -> A -> comparison).
Hypothesis cmp_total : TotalOrder cmp.

Lemma cmp_not_gt_trans (x y z : A) :
  cmp x y <> Gt -> cmp y z <> Gt -> cmp x z <> Gt.
Proof.
  intros Hxy Hyz.
  destruct (cmp x y) eqn:Exy; try congruence.
  - apply (cmp_eq cmp cmp_total) in Exy; subst y; exact Hyz.
  - destruct (cmp y z) eqn:Eyz; try congruence.
    + apply (cmp_eq cmp cmp_total) in Eyz; subst z; congruence.
    + rewrite (cmp_lt_trans cmp cmp_total x y z Exy Eyz); discriminate.
Qed.
End OrderFacts.

Lemma ascii_compare_total : TotalOrder Ascii.compare.
Proof.
  constructor.
  - intros x y; split.
    + apply Ascii.compare_eq_iff.
    + intros ->; unfold Ascii.compare; apply N.compare_refl.
  - intros x y; apply Ascii.compare_antisym.
  - intros x y z; unfold Ascii.compare.
    rewrite !N.compare_lt_iff; apply N.lt_trans.
Qed.

Lemma string_compare_seq (s1 s2 : string) :
  String.compare s1 s2 =
  seq_compare Ascii.compare (list_ascii_of_string s1) (list_ascii_of_string s2).
Proof.
  revert s2; induction s1 as [|a s1 IH]; intros [|b s2]; simpl; auto.
  rewrite IH; reflexivity.
Qed.

Lemma list_ascii_of_string_inj (s1 s2 : string) :
  list_ascii_of_string s1 = list_ascii_of_string s2 -> s1 = s2.
Proof.
  intros H.
  rewrite <- (string_of_list_ascii_of_string s1),
          <- (string_of_list_ascii_of_string s2), H.
  reflexivity.
Qed.

Lemma string_compare_total : TotalOrder String.compare.
Proof.
  pose proof (seq_compare_total Ascii.compare ascii_compare_total) as T.
  constructor.
  - intros x y; rewrite string_compare_seq, (cmp_eq _ T); split.
    + apply list_ascii_of_string_inj.
    + intros ->; reflexivity.
  - intros x y; rewrite !string_compare_seq; apply (cmp_opp _ T).
  - intros x y z; rewrite !string_compare_seq; apply (cmp_lt_trans _ T).
Qed.

Lemma parts_compare_total : TotalOrder parts_compare.
Proof. exact (seq_compare_total String.compare string_compare_total). Qed.

(** ** The stable sort *)

Section StableSort.
Context {A : Type} (lt : A -> A -> bool).

(** [lt] is a strict weak order: asymmetric, and "not smaller" is
    transitive. *)
Hypothesis lt_asym : forall a b, lt a b = true -> lt b a = false.
Hypothesis ge_trans :
  forall a b c, lt b a = false -> lt c b = false -> lt c a = false.

Lemma insort_perm (x : A) (l : list A) : Permutation (insort lt x l) (x :: l).
Proof.
  induction l as [|y t IH]; simpl; auto.
  destruct (lt y x); auto.
  rewrite IH; apply perm_swap.
Qed.

Lemma sorted_perm (l : list A) : Permutation (sorted lt l) l.
Proof.
  induction l as [|x l IH]; simpl; auto.
  rewrite insort_perm; auto.
Qed.

Lemma sorted_In (x : A) (l : list A) : In x (sorted lt l) <-> In x l.
Proof.
  split; apply Permutation_in;
    [apply sorted_perm | apply Permutation_sym, sorted_perm].
Qed.

Lemma sorted_Forall (P : A -> Prop) (l : list A) :
  Forall P l -> Forall P (sorted lt l).
Proof.
  rewrite !Forall_forall; intros H x Hx; apply H, sorted_In, Hx.
Qed.

Lemma sorted_length (l : list A) : List.length (sorted lt l) = List.length l.
Proof. apply Permutation_length, sorted_perm. Qed.

(** An element that nothing in the list is smaller than goes first. *)
Lemma insort_first (x : A) (l : list A) :
  Forall (fun y => lt y x = false) l -> insort lt x l = x :: l.
Proof.
  destruct l as [|y t]; simpl; auto.
  intros H; inversion_clear H as [|? ? Hy _]; rewrite Hy; reflexivity.
Qed.

Lemma insort_precedes (tie : A -> A -> Prop) (x : A) (l : list A) :
  Forall (tie x) l ->
  StronglySorted (precedes lt tie) l ->
  StronglySorted (precedes lt tie) (insort lt x l).
Proof.
  intros Hx Hl; induction Hl as [|y t Ht IH Hy]; simpl.
  - repeat constructor.
  - inversion_clear Hx as [|? ? Hxy Hxt].
    destruct (lt y x) eqn:E.
    + constructor; [apply IH, Hxt|].
      eapply Permutation_Forall;
        [apply Permutation_sym, insort_perm|].
      constructor; auto.
      split; [apply lt_asym, E | congruence].
    + constructor; [constructor; auto|].
      constructor; [split; auto|].
      rewrite Forall_forall in *; intros z Hz.
      destruct (Hy z Hz) as [Hzy _].
      split; [eapply ge_trans; eauto | auto].
Qed.

(** A list that is in tie-break order is, once sorted, ordered by [lt]
    with equivalent elements still in tie-break order: the sort is
    stable. *)
Lemma sorted_stable (tie : A -> A -> Prop) (l : list A) :
  StronglySorted tie l -> StronglySorted (precedes lt tie) (sorted lt l).
Proof.
  induction 1 as [|x l Hl IH Hx]; simpl; [constructor|].
  apply insort_precedes; auto.
  apply sorted_Forall, Hx.
Qed.

Lemma sorted_sorted (l : list A) :
  StronglySorted (fun a b => lt b a = false) (sorted lt l).
Proof.
  induction l as [|x l IH]; simpl; [constructor|].
  generalize dependent (sorted lt l); intros s Hs.
  induction Hs as [|y t Ht IHt Hy]; simpl.
  - repeat constructor.
  - destruct (lt y x) eqn:E.
    + constructor; auto.
      eapply Permutation_Forall;
        [apply Permutation_sym, insort_perm|].
      constructor; auto.
    + constructor; [constructor; auto|].
      constructor; auto.
      rewrite Forall_forall in *; intros z Hz.
      eapply ge_trans; eauto.
Qed.

Lemma filter_insort (f : A -> bool) (x : A) (l : list A) :
  StronglySorted (fun a b => lt b a = false) l ->
  filter f (insort lt x l) =
  if f x then insort lt x (filter f l) else filter f l.
Proof.
  induction 1 as [|y t Ht IH Hy]; simpl.
  - destruct (f x); reflexivity.
  - destruct (lt y x) eqn:E; simpl.
    + rewrite IH.
      destruct (f x), (f y); simpl; rewrite ?E; reflexivity.
    + destruct (f x) eqn:Fx, (f y) eqn:Fy; simpl; rewrite ?E; auto.
      symmetry; apply insort_first.
      rewrite Forall_forall in *; intros z Hz.
      apply filter_In in Hz; destruct Hz as [Hz _].
      eapply ge_trans; eauto.
Qed.

(** Sorting commutes with filtering: removing elements does not change
    the order of the others. *)
Lemma filter_sorted (f : A -> bool) (l : list A) :
  filter f (sorted lt l) = sorted lt (filter f l).
Proof.
  induction l as [|x l IH]; simpl; auto.
  rewrite filter_insort by apply sorted_sorted.
  destruct (f x); simpl; rewrite IH; reflexivity.
Qed.
End StableSort.

(** ** The two orders the script sorts by *)

Lemma path_lt_asym (a b : Path) : path_lt a b = true -> path_lt b a = false.
Proof.
  unfold path_lt.
  rewrite (cmp_opp _ parts_compare_total (parts a) (parts b)).
  destruct (parts_compare (parts a) (parts b)); simpl; congruence.
Qed.

Lemma path_ge_trans (a b c : Path) :
  path_lt b a = false -> path_lt c b = false -> path_lt c a = false.
Proof.
  unfold path_lt; intros Hba Hcb.
  assert (Hab : parts_compare (parts a) (parts b) <> Gt).
  { rewrite (cmp_opp _ parts_compare_total (parts b) (parts a)).
    destruct (parts_compare (parts b) (parts a)); simpl; congruence. }
  assert (Hbc : parts_compare (parts b) (parts c) <> Gt).
  { rewrite (cmp_opp _ parts_compare_total (parts c) (parts b)).
    destruct (parts_compare (parts c) (parts b)); simpl; congruence. }
  pose proof (cmp_not_gt_trans _ parts_compare_total _ _ _ Hab Hbc) as Hac.
  rewrite (cmp_opp _ parts_compare_total (parts a) (parts c)).
  destruct (parts_compare (parts a) (parts c)); simpl; congruence.
Qed.

Section KeyOrder.
Context {A : Type} (key : A -> Z).

Lemma key_lt_asym (a b : A) :
  (key a <? key b) = true -> (key b <? key a) = false.
Proof. rewrite Z.ltb_lt, Z.ltb_ge; lia. Qed.

Lemma key_ge_trans (a b c : A) :
  (key b <? key a) = false -> (key c <? key b) = false ->
  (key c <? key a) = false.
Proof. rewrite !Z.ltb_ge; lia. Qed.

Lemma filter_sort_key (f : A -> bool) (l : list A) :
  filter f (sort_key key l) = sort_key key (filter f l).
Proof.
  unfold sort_key; apply filter_sorted.
  - intros a b; apply key_lt_asym.
  - intros a b c; apply key_ge_trans.
Qed.
End KeyOrder.

(** ** Strings *)

Lemma append_assoc (a b c : string) :
  ((a ++ b) ++ c = a ++ (b ++ c))%string.
Proof. induction a as [|x a IH]; simpl; congruence. Qed.

Lemma append_empty_r (a : string) : (a ++ "" = a)%string.
Proof. induction a as [|x a IH]; simpl; congruence. Qed.

Lemma length_append (a b : string) :
  String.length (a ++ b) = (String.length a + String.length b)%nat.
Proof. induction a as [|x a IH]; simpl; congruence. Qed.

Lemma length_spaces (n : nat) : String.length (spaces n) = n.
Proof. induction n; simpl; congruence. Qed.

Lemma prefix_append (s t : string) : String.prefix s (s ++ t) = true.
Proof.
  induction s as [|x s IH]; simpl.
  - destruct t; reflexivity.
  - destruct (ascii_dec x x); [exact IH | congruence].
Qed.

Lemma str_contains_prefix (sub s : string) :
  String.prefix sub s = true -> str_contains sub s = true.
Proof. intros H; destruct s; cbn [str_contains]; rewrite H; reflexivity. Qed.

Lemma str_contains_append (sub pre post : string) :
  str_contains sub (pre ++ sub ++ post) = true.
Proof.
  induction pre as [|x pre IH].
  - cbn [append]; apply str_contains_prefix, prefix_append.
  - simpl; rewrite IH; apply orb_true_r.
Qed.

(** A field of minimum width [w] is at least [w] wide, and as wide as
    its content when that is wider. *)
Lemma length_rjust (w : nat) (s : string) :
  String.length (rjust w s) = Nat.max w (String.length s).
Proof. unfold rjust; rewrite length_append, length_spaces; lia. Qed.

(** ** Paths *)

Lemma tuple_contains_In (x : string) (t : list string) :
  tuple_contains x t = true <-> In x t.
Proof.
  unfold tuple_contains; rewrite existsb_exists; split.
  - intros (y & Hy & E); apply String.eqb_eq in E; subst; exact Hy.
  - intros H; exists x; split; [exact H | apply String.eqb_refl].
Qed.

Lemma parts_joinpath (dir : Path) (rel : list string) :
  parts (joinpath dir rel) = parts dir ++ rel.
Proof. unfold parts, joinpath; simpl; destruct (anchor dir =? "")%string; auto. Qed.

Lemma strip_prefix_app (pre rel : list string) :
  strip_prefix pre (pre ++ rel) = Some rel.
Proof.
  induction pre as [|a pre IH]; simpl; [destruct rel; auto|].
  rewrite String.eqb_refl; exact IH.
Qed.

Lemma strip_prefix_Some (pre l rel : list string) :
  strip_prefix pre l = Some rel -> l = pre ++ rel.
Proof.
  revert l; induction pre as [|a pre IH]; intros [|b l]; simpl;
    try congruence.
  destruct (String.eqb_spec a b); [|discriminate].
  intros H; rewrite (IH _ H); congruence.
Qed.

Lemma relative_to_joinpath (root : Path) (rel : list string) :
  relative_to (joinpath root rel) root = Ok (mkPath "" rel).
Proof.
  unfold relative_to, joinpath; simpl.
  rewrite String.eqb_refl, strip_prefix_app; reflexivity.
Qed.

Lemma relative_to_Ok (p root r : Path) :
  relative_to p root = Ok r -> anchor r = "" /\ p = joinpath root (tail r).
Proof.
  unfold relative_to.
  destruct (String.eqb_spec (anchor p) (anchor root)) as [E|]; [|discriminate].
  destruct (strip_prefix (tail root) (tail p)) as [rel|] eqn:S; [|discriminate].
  intros H; injection H as <-; simpl; split; auto.
  apply strip_prefix_Some in S.
  destruct p as [a t]; unfold joinpath; simpl in *; congruence.
Qed.

(** ** The loop computes [collect] *)

Lemma for_paths_collect (fs : FileSystem) (root : Path) (max_size : Z)
    (rust_files : list Path) (acc : list entry) :
  for_paths fs root max_size rust_files acc =
  Ok (acc ++ collect fs root max_size rust_files).
Proof.
  revert acc; induction rust_files as [|path rest IH]; intros acc; simpl.
  - rewrite app_nil_r; reflexivity.
  - unfold kept, try_body.
    destruct (skipped path); [apply IH|].
    destruct (read_text fs path) as [content|e]; simpl; [|apply IH].
    destruct (max_size <=? loc_of content); simpl; [|apply IH].
    destruct (relative_to path root) as [rel|e]; simpl; [|apply IH].
    rewrite IH, <- app_assoc; reflexivity.
Qed.

Lemma scan_large_files (fs : FileSystem) (max_size : Z) :
  scan fs max_size = Ok (large_files fs max_size).
Proof.
  unfold scan, large_files, root_of.
  rewrite for_paths_collect; reflexivity.
Qed.

Lemma main_report (fs : FileSystem) (max_size : Z) :
  main fs (Some max_size) = Ok (report max_size (large_files fs max_size)).
Proof. unfold main; rewrite scan_large_files; reflexivity. Qed.

Lemma collect_In (fs : FileSystem) (root : Path) (max_size : Z)
    (paths : list Path) (e : entry) :
  In e (collect fs root max_size paths) <->
  exists p, In p paths /\ kept fs root max_size p = Some e.
Proof.
  induction paths as [|p paths IH]; simpl.
  - split; [tauto | intros (? & [] & _)].
  - destruct (kept fs root max_size p) as [e'|] eqn:K; simpl; rewrite IH.
    + split.
      * intros [<-|(q & Hq & Kq)]; [exists p | exists q]; auto.
      * intros (q & [<-|Hq] & Kq); [left; congruence | right; exists q; auto].
    + split.
      * intros (q & Hq & Kq); exists q; auto.
      * intros (q & [<-|Hq] & Kq); [congruence | exists q; auto].
Qed.

(** What it takes for a path to be kept. *)
Lemma kept_Some (fs : FileSystem) (root : Path) (max_size : Z)
    (p : Path) (e : entry) :
  kept fs root max_size p = Some e ->
  skipped p = false /\
  (exists content, read_text fs p = Ok content /\ snd e = loc_of content) /\
  max_size <= snd e /\
  relative_to p root = Ok (fst e).
Proof.
  unfold kept.
  destruct (skipped p); [discriminate|].
  destruct (read_text fs p) as [content|]; [|discriminate].
  destruct (max_size <=? loc_of content) eqn:L; [|discriminate].
  destruct (relative_to p root) as [rel|]; [|discriminate].
  intros H; injection H as <-; simpl.
  apply Z.leb_le in L; eauto 6.
Qed.

Lemma large_files_In (fs : FileSystem) (max_size : Z) (e : entry) :
  In e (large_files fs max_size) <->
  exists p, In p (rglob_rs fs (root_of fs)) /\
            kept fs (root_of fs) max_size p = Some e.
Proof.
  unfold large_files, sort_key.
  rewrite sorted_In, collect_In.
  split; intros (p & Hp & K); exists p; split; auto;
    apply sorted_In in Hp || apply sorted_In; auto.
Qed.

(** ** The result list *)

(** C1. For every threshold, the scan returns a result list, and every
    entry of it carries a line count that is at least the threshold; that
    count is the line count of the file the entry names, so no file with
    fewer lines than the threshold is in the report. *)
Theorem entries_reach_threshold (fs : FileSystem) (T : Z) :
  exists l,
    scan fs T = Ok l /\
    Forall (fun e =>
              T <= snd e /\
              exists content,
                read_text fs (full_path (root_of fs) e) = Ok content /\
                snd e = loc_of content) l.
Proof.
  exists (large_files fs T); split; [apply scan_large_files|].
  apply Forall_forall; intros e He.
  apply large_files_In in He; destruct He as (p & _ & K).
  apply kept_Some in K; destruct K as (_ & (content & R & L) & HT & Rel).
  apply relative_to_Ok in Rel; destruct Rel as [_ ->] in R.
  split; [exact HT | exists content; auto].
Qed.

Lemma exclusion_rule_skipped (p : Path) : exclusion_rule p -> skipped p = true.
Proof.
  unfold skipped; intros [H|[H|[[stem H]|H]]].
  - apply tuple_contains_In in H; rewrite H; reflexivity.
  - apply tuple_contains_In in H; rewrite H, ?orb_true_r; reflexivity.
  - rewrite H.
    change (stem ++ "test" ++ ".rs")%string
      with (stem ++ "test.rs" ++ "")%string.
    rewrite str_contains_append, ?orb_true_r; reflexivity.
  - rewrite H, String.eqb_refl, ?orb_true_r; reflexivity.
Qed.

(** C3. A file that matches any one of the four exclusion rules (a
    component [target], a component [test], a base name with [test]
    directly before the [.rs] extension, the base name [bindings.rs]) is
    not in the result list, whatever its line count. *)
Theorem excluded_never_reported (fs : FileSystem) (T : Z) (p rel : Path) :
  exclusion_rule p ->
  relative_to p (root_of fs) = Ok rel ->
  exists l, scan fs T = Ok l /\ ~ In rel (map fst l).
Proof.
  intros Hrule Hrel.
  exists (large_files fs T); split; [apply scan_large_files|].
  intros Hin; apply in_map_iff in Hin; destruct Hin as (e & <- & He).
  apply large_files_In in He; destruct He as (q & _ & K).
  apply kept_Some in K; destruct K as (Hskip & _ & _ & Hq).
  apply relative_to_Ok in Hrel, Hq.
  destruct Hrel as [_ ->], Hq as [_ ->].
  rewrite (exclusion_rule_skipped _ Hrule) in Hskip; discriminate.
Qed.

Lemma excluded_never_reported_witness :
  exists l,
    scan fs_sizes 500 = Ok l /\
    ~ In (mkPath "" ["target"; "debug"; "gen.rs"]) (map fst l).
Proof.
  apply (excluded_never_reported fs_sizes 500
           (mkPath "/" ["proj"; "target"; "debug"; "gen.rs"])).
  - left; simpl; tauto.
  - reflexivity.
Defined.

(** ** The report *)

Lemma main_of_empty_scan (fs : FileSystem) (T : Z) :
  scan fs T = Ok [] ->
  main fs (Some T) =
  Ok ("No Rust files with " ++ str_int T ++ "+ LOC found." ++ nl)%string.
Proof.
  intros H; unfold main; rewrite H; simpl.
  unfold print; simpl; rewrite append_assoc; reflexivity.
Qed.

(** C6. When the result list is empty, the standard output is the one
    line [No Rust files with {threshold}+ LOC found.] and nothing else. *)
Theorem empty_report (fs : FileSystem) (T : Z) :
  scan fs T = Ok [] ->
  main fs (Some T) =
  Ok ("No Rust files with " ++ str_int T ++ "+ LOC found." ++ nl)%string.
Proof. exact (main_of_empty_scan fs T). Qed.

Lemma empty_report_witness :
  main fs_sizes (Some 1000) =
  Ok ("No Rust files with " ++ "1000" ++ "+ LOC found." ++ nl)%string.
Proof.
  apply (empty_report fs_sizes 1000); vm_compute; reflexivity.
Defined.

(** C8. Run as a script, the program calls [main] without an argument,
    and [main] without an argument runs with the threshold 500. *)
Theorem default_threshold (fs : FileSystem) :
  script fs = main fs None /\ main fs None = main fs (Some 500).
Proof. split; reflexivity. Qed.

Lemma rglob_rs_joinpath (fs : FileSystem) (dir p : Path) :
  In p (rglob_rs fs dir) -> exists rel, p = joinpath dir rel.
Proof.
  unfold rglob_rs; rewrite in_map_iff; intros (rel & <- & _); eauto.
Qed.

Lemma collect_all_skipped (fs : FileSystem) (root : Path) (T : Z)
    (paths : list Path) :
  Forall (fun p => skipped p = true) paths -> collect fs root T paths = [].
Proof.
  induction 1 as [|p paths Hp _ IH]; simpl; auto.
  unfold kept; rewrite Hp; exact IH.
Qed.

(** C9. The two component rules look at the whole path, the anchor
    directory's own components included: when the anchor directory has a
    component [target] or [test], every candidate is skipped and the
    output is the empty-case line. *)
Theorem anchor_in_excluded_dir (fs : FileSystem) (T : Z) :
  In "target" (parts (root_of fs)) \/ In "test" (parts (root_of fs)) ->
  scan fs T = Ok [] /\
  main fs (Some T) =
  Ok ("No Rust files with " ++ str_int T ++ "+ LOC found." ++ nl)%string.
Proof.
  intros H.
  assert (E : scan fs T = Ok []).
  { rewrite scan_large_files; unfold large_files.
    rewrite collect_all_skipped; [reflexivity|].
    apply sorted_Forall, Forall_forall; intros p Hp.
    apply rglob_rs_joinpath in Hp; destruct Hp as [rel ->].
    apply exclusion_rule_skipped; unfold exclusion_rule.
    rewrite parts_joinpath, !in_app_iff; tauto. }
  split; [exact E | apply main_of_empty_scan, E].
Qed.

Lemma anchor_in_excluded_dir_witness :
  scan fs_in_target 0 = Ok [] /\
  main fs_in_target (Some 0) =
  Ok ("No Rust files with " ++ "0" ++ "+ LOC found." ++ nl)%string.
Proof.
  apply (anchor_in_excluded_dir fs_in_target 0).
  left; simpl; tauto.
Defined.

(** ** Order of the result list *)

Lemma StronglySorted_weaken {A : Type} (R S : A -> A -> Prop) (l : list A) :
  (forall a b, R a b -> S a b) -> StronglySorted R l -> StronglySorted S l.
Proof.
  intros HRS; induction 1 as [|x l Hl IH Hx]; constructor; auto.
  eapply Forall_impl; [|exact Hx]; auto.
Qed.

(** The loop keeps the order of the paths it is given. *)
Lemma collect_sorted (fs : FileSystem) (root : Path) (T : Z)
    (paths : list Path) :
  StronglySorted (fun p q => path_lt q p = false) paths ->
  StronglySorted
    (fun a b => path_lt (full_path root b) (full_path root a) = false)
    (collect fs root T paths).
Proof.
  induction 1 as [|p paths Hs IH Hp]; simpl; [constructor|].
  destruct (kept fs root T p) as [e|] eqn:K; auto.
  constructor; auto.
  apply Forall_forall; intros e' He'.
  apply collect_In in He'; destruct He' as (q & Hq & Kq).
  apply kept_Some in K, Kq.
  destruct K as (_ & _ & _ & Rp), Kq as (_ & _ & _ & Rq).
  apply relative_to_Ok in Rp, Rq.
  destruct Rp as [_ Ep], Rq as [_ Eq].
  unfold full_path; rewrite <- Ep, <- Eq.
  rewrite Forall_forall in Hp; auto.
Qed.

Lemma large_files_order (fs : FileSystem) (T : Z) :
  StronglySorted (listed_before (root_of fs)) (large_files fs T).
Proof.
  unfold large_files, sort_key.
  eapply StronglySorted_weaken;
    [| apply sorted_stable with
         (tie := fun a b =>
                   path_lt (full_path (root_of fs) b)
                           (full_path (root_of fs) a) = false)].
  - intros a b [Hge Htie]; split.
    + apply Z.ltb_ge in Hge; lia.
    + intros E; apply Htie, Z.ltb_ge; lia.
  - intros a b; apply key_lt_asym.
  - intros a b c; apply key_ge_trans.
  - apply collect_sorted, sorted_sorted.
    + apply path_lt_asym.
    + apply path_ge_trans.
Qed.

(** C2, as the code has it. The result list is sorted descending by line
    count, and entries with equal line counts stand in the order of their
    paths as pathlib compares them, component by component. *)
Theorem result_list_order (fs : FileSystem) (T : Z) :
  exists l,
    scan fs T = Ok l /\
    StronglySorted (listed_before (root_of fs)) l.
Proof.
  exists (large_files fs T); split; [apply scan_large_files|].
  apply large_files_order.
Qed.

(** C2, as it is worded, fails: two files with one line each, in
    directories [a] and [a-b]. The report lists [a/x.rs] first, and the
    string [/proj/a-b/x.rs] is smaller than [/proj/a/x.rs]. *)
Lemma tie_order_not_by_string :
  exists l,
    scan fs_ties 1 = Ok l /\
    ~ StronglySorted (listed_before_by_string (root_of fs_ties)) l.
Proof.
  eexists; split; [vm_compute; reflexivity|].
  intros H; inversion_clear H as [|? ? _ Hall].
  inversion_clear Hall as [|? ? [_ Htie] _].
  specialize (Htie eq_refl); vm_compute in Htie; discriminate.
Qed.

(** ** The threshold *)

Lemma collect_threshold (fs : FileSystem) (root : Path) (T1 T2 : Z)
    (paths : list Path) :
  T1 <= T2 ->
  collect fs root T2 paths =
  filter (fun e => T2 <=? snd e) (collect fs root T1 paths).
Proof.
  intros HT; induction paths as [|p paths IH]; simpl; auto.
  unfold kept.
  destruct (skipped p); auto.
  destruct (read_text fs p) as [content|]; auto.
  destruct (T2 <=? loc_of content) eqn:L2.
  - assert (L1 : (T1 <=? loc_of content) = true)
      by (apply Z.leb_le; apply Z.leb_le in L2; lia).
    rewrite L1.
    destruct (relative_to p root); auto.
    simpl; rewrite L2, IH; reflexivity.
  - destruct (T1 <=? loc_of content); auto.
    destruct (relative_to p root); auto.
    simpl; rewrite L2; exact IH.
Qed.

(** C10. Raising the threshold only removes entries: for [T1 <= T2] the
    result list at [T2] is the result list at [T1] restricted to the
    entries with at least [T2] lines, in the same order and with the same
    line counts. *)
Theorem threshold_antitone (fs : FileSystem) (T1 T2 : Z) :
  T1 <= T2 ->
  exists l1 l2,
    scan fs T1 = Ok l1 /\
    scan fs T2 = Ok l2 /\
    l2 = filter (fun e => T2 <=? snd e) l1 /\
    (forall e, In e l2 -> In e l1).
Proof.
  intros HT.
  exists (large_files fs T1), (large_files fs T2).
  assert (E : large_files fs T2 =
              filter (fun e => T2 <=? snd e) (large_files fs T1)).
  { unfold large_files.
    rewrite filter_sort_key, <- collect_threshold by exact HT.
    reflexivity. }
  repeat split; try apply scan_large_files; auto.
  intros e He; rewrite E in He; apply filter_In in He; tauto.
Qed.

Lemma threshold_antitone_witness :
  exists l1 l2,
    scan fs_sizes 500 = Ok l1 /\
    scan fs_sizes 600 = Ok l2 /\
    l2 = filter (fun e => 600 <=? snd e) l1 /\
    (forall e, In e l2 -> In e l1).
Proof.
  apply (threshold_antitone fs_sizes 500 600); lia.
Defined.

(** ** Read failures *)

Lemma filter_map_comm {A B : Type} (f : B -> bool) (g : A -> B) (l : list A) :
  filter f (map g l) = map g (filter (fun a => f (g a)) l).
Proof.
  induction l as [|a l IH]; simpl; auto.
  destruct (f (g a)); simpl; congruence.
Qed.

Lemma filter_filter_comm {A : Type} (f g : A -> bool) (l : list A) :
  filter f (filter g l) = filter g (filter f l).
Proof.
  induction l as [|a l IH]; simpl; auto.
  destruct (f a) eqn:F, (g a) eqn:G; simpl; rewrite ?F, ?G; congruence.
Qed.

Lemma rglob_rs_without_unreadable (fs : FileSystem) (dir : Path) :
  rglob_rs (without_unreadable fs) dir = filter (readable fs) (rglob_rs fs dir).
Proof.
  unfold rglob_rs; simpl.
  rewrite filter_map_comm, filter_filter_comm; reflexivity.
Qed.

Lemma collect_without_unreadable (fs : FileSystem) (root : Path) (T : Z)
    (paths : list Path) :
  collect (without_unreadable fs) root T paths = collect fs root T paths.
Proof.
  induction paths as [|p paths IH]; simpl; auto.
  rewrite IH; reflexivity.
Qed.

Lemma collect_filter_readable (fs : FileSystem) (root : Path) (T : Z)
    (paths : list Path) :
  collect fs root T (filter (readable fs) paths) = collect fs root T paths.
Proof.
  induction paths as [|p paths IH]; simpl; auto.
  unfold readable at 1.
  destruct (read_text fs p) as [content|e] eqn:R; simpl.
  - rewrite IH; reflexivity.
  - rewrite IH; unfold kept; rewrite R.
    destruct (skipped p); reflexivity.
Qed.

Lemma large_files_without_unreadable (fs : FileSystem) (T : Z) :
  large_files (without_unreadable fs) T = large_files fs T.
Proof.
  unfold large_files.
  change (root_of (without_unreadable fs)) with (root_of fs).
  rewrite rglob_rs_without_unreadable, collect_without_unreadable.
  rewrite <- filter_sorted
    by (intros; eauto using path_lt_asym, path_ge_trans).
  rewrite collect_filter_readable; reflexivity.
Qed.

(** C4. A read that raises does not end the run: the scan returns a
    result list and [main] returns its output; a file whose read raised
    is not in the list; every candidate that is not skipped, is readable
    and has enough lines is in the list with its line count; and list and
    output are the ones of the same tree without the unreadable files. *)
Theorem read_failures_skipped (fs : FileSystem) (T : Z) :
  exists l out,
    scan fs T = Ok l /\
    main fs (Some T) = Ok out /\
    (forall p rel e,
        read_text fs p = Raise e ->
        relative_to p (root_of fs) = Ok rel ->
        ~ In rel (map fst l)) /\
    (forall p content,
        In p (rglob_rs fs (root_of fs)) ->
        skipped p = false ->
        read_text fs p = Ok content ->
        T <= loc_of content ->
        exists rel,
          relative_to p (root_of fs) = Ok rel /\ In (rel, loc_of content) l) /\
    scan (without_unreadable fs) T = Ok l /\
    main (without_unreadable fs) (Some T) = Ok out.
Proof.
  exists (large_files fs T), (report T (large_files fs T)).
  split; [apply scan_large_files|].
  split; [apply main_report|].
  split; [|split; [|split]].
  - intros p rel e Hread Hrel Hin.
    apply in_map_iff in Hin; destruct Hin as (x & <- & Hx).
    apply large_files_In in Hx; destruct Hx as (q & _ & K).
    apply kept_Some in K; destruct K as (_ & (content & R & _) & _ & Hq).
    apply relative_to_Ok in Hrel, Hq.
    destruct Hrel as [_ ->], Hq as [_ ->].
    congruence.
  - intros p content Hp Hskip Hread HT.
    destruct (rglob_rs_joinpath _ _ _ Hp) as [rel0 E].
    exists (mkPath "" rel0); split; [subst p; apply relative_to_joinpath|].
    apply large_files_In; exists p; split; [exact Hp|].
    unfold kept; rewrite Hskip, Hread.
    apply Z.leb_le in HT; rewrite HT.
    subst p; rewrite relative_to_joinpath; reflexivity.
  - rewrite scan_large_files, large_files_without_unreadable; reflexivity.
  - rewrite main_report, large_files_without_unreadable; reflexivity.
Qed.

(** A file that cannot be opened sits between readable ones in the
    order of the loop; the files after it are still reported. *)
Example locked_file_is_skipped :
  read_text fs_sizes (mkPath "/" ["proj"; "src"; "locked.rs"]) = Raise OSError /\
  sorted path_lt (rglob_rs fs_sizes (root_of fs_sizes)) =
    map (fun rel => mkPath "/" ("proj" :: rel))
      [ ["src"; "big.rs"]; ["src"; "bindings.rs"]; ["src"; "locked.rs"];
        ["src"; "mid.rs"]; ["src"; "parser_test.rs"]; ["src"; "small.rs"];
        ["target"; "debug"; "gen.rs"] ] /\
  scan fs_sizes 500 =
    Ok [ (mkPath "" ["src"; "big.rs"], 600);
         (mkPath "" ["src"; "mid.rs"], 500) ].
Proof. repeat split; reflexivity. Qed.

(** ** Line counts *)

Lemma universal_newlines_no_CR (s : text) :
  ~ In CR s -> universal_newlines s = s.
Proof.
  induction s as [|c s IH]; simpl; auto.
  intros H.
  destruct (N.eqb_spec c CR) as [->|_]; [tauto|].
  rewrite IH; tauto.
Qed.

Lemma splitlines_from_newline (cur s : text) :
  (forall c, In c s -> is_linebreak c = true -> c = LF) ->
  splitlines_from cur s = split_newline_from cur s.
Proof.
  revert cur; induction s as [|c s IH]; intros cur H; simpl; auto.
  assert (Hs : forall d, In d s -> is_linebreak d = true -> d = LF)
    by (intros d Hd; apply H; right; exact Hd).
  destruct (is_linebreak c) eqn:B.
  - rewrite (H c (or_introl eq_refl) B); simpl.
    rewrite (IH [] Hs); destruct s; reflexivity.
  - destruct (N.eqb_spec c LF) as [->|_]; [discriminate B|].
    apply IH, Hs.
Qed.

Example line_count_empty : loc_of (universal_newlines []) = 0.
Proof. reflexivity. Qed.

Example line_count_unterminated :
  loc_of (universal_newlines (text_of_string "a" ++ [LF] ++ text_of_string "b"))
  = 2.
Proof. reflexivity. Qed.

Example line_count_terminated :
  loc_of (universal_newlines
            (text_of_string "a" ++ [LF] ++ text_of_string "b" ++ [LF]))
  = 2.
Proof. reflexivity. Qed.

(** C5, as it is worded, fails: a form feed or a record separator
    between [a] and [b] makes two lines for the script, and both files are
    reported at threshold 2, where a split on newline finds one segment
    in each. The same holds for every boundary of [str.splitlines] other
    than the newline, a lone carriage return included. *)
Lemma form_feed_ends_a_line :
  read_text fs_form_feed (mkPath "/" ["proj"; "page.rs"])
    = Ok form_feed_text /\
  read_text fs_form_feed (mkPath "/" ["proj"; "records.rs"])
    = Ok record_separator_text /\
  scan fs_form_feed 2 =
    Ok [(mkPath "" ["page.rs"], 2); (mkPath "" ["records.rs"], 2)] /\
  loc_of form_feed_text <>
    Z.of_nat (List.length (newline_segments form_feed_text)) /\
  loc_of record_separator_text <>
    Z.of_nat (List.length (newline_segments record_separator_text)) /\
  Forall (fun c =>
            loc_of (universal_newlines [97; c; 98]%N) = 2 /\
            List.length (newline_segments [97; c; 98]%N) = 1%nat)
         [11; 12; 13; 28; 29; 30; 133; 8232; 8233]%N.
Proof.
  repeat (split; [reflexivity|]).
  split; [vm_compute; discriminate|].
  split; [vm_compute; discriminate|].
  repeat (constructor; [split; reflexivity|]).
  constructor.
Qed.

(** ** The non-empty report *)

Lemma concat_cons (x : string) (l : list string) :
  String.concat "" (x :: l) = (x ++ String.concat "" l)%string.
Proof. destruct l; simpl; [rewrite append_empty_r|]; reflexivity. Qed.

Lemma fold_print (l : list entry) (out : string) :
  fold_left (fun out e => print out (entry_line e)) l out =
  (out ++ String.concat "" (map (fun e => entry_line e ++ nl) l))%string.
Proof.
  revert out; induction l as [|e l IH]; intros out.
  - simpl; rewrite append_empty_r; reflexivity.
  - cbn [fold_left map]; rewrite IH, concat_cons.
    unfold print; rewrite !append_assoc; reflexivity.
Qed.

Lemma spaces_add (m n : nat) :
  (spaces m ++ spaces n)%string = spaces (m + n).
Proof. induction m as [|m IH]; simpl; congruence. Qed.

Lemma count_field_rjust (e : entry) :
  count_field e =
  (spaces (String.length (count_field e) - String.length (str_int (snd e)))
   ++ str_int (snd e))%string.
Proof.
  unfold count_field, rjust.
  change "  "%string with (spaces 2).
  rewrite <- append_assoc, spaces_add.
  rewrite length_append, length_spaces.
  f_equal; f_equal; lia.
Qed.



Example loop_order_is_not_report_order :
  for_paths fs_unsorted (root_of fs_unsorted) 500
    (sorted path_lt (rglob_rs fs_unsorted (root_of fs_unsorted))) [] =
  Ok [(mkPath "" ["a.rs"], 500); (mkPath "" ["b.rs"], 700);
      (mkPath "" ["c.rs"], 600)] /\
  scan fs_unsorted 500 =
  Ok [(mkPath "" ["b.rs"], 700); (mkPath "" ["c.rs"], 600);
      (mkPath "" ["a.rs"], 500)].
Proof. split; reflexivity. Qed.

(** * Further properties of the script *)

(** ** The skip condition, exactly *)

Lemma prefix_iff (sub s : string) :
  String.prefix sub s = true <-> exists post, s = (sub ++ post)%string.
Proof.
  split.
  - revert s; induction sub as [|a sub IH]; intros s H.
    + exists s; reflexivity.
    + destruct s as [|b s]; simpl in H; [discriminate|].
      destruct (ascii_dec a b) as [<-|]; [|discriminate].
      destruct (IH s H) as [post ->]; exists post; reflexivity.
  - intros [post ->]; apply prefix_append.
Qed.

Lemma str_contains_iff (sub s : string) :
  str_contains sub s = true <->
  exists pre post, s = (pre ++ sub ++ post)%string.
Proof.
  split.
  - induction s as [|c s IH]; cbn [str_contains]; intros H;
      apply orb_true_iff in H; destruct H as [H|H]; try discriminate.
    + apply prefix_iff in H; destruct H as [post E].
      exists ""%string, post; exact E.
    + apply prefix_iff in H; destruct H as [post E].
      exists ""%string, post; exact E.
    + destruct (IH H) as (pre & post & ->).
      exists (String c pre), post; reflexivity.
  - intros (pre & post & ->); apply str_contains_append.
Qed.

(** X1. A path is skipped exactly when one of its components is
    [target] or [test], or its name contains [test.rs] anywhere, or its
    name is [bindings.rs]; nothing else is skipped (a directory [tests]
    or [targets] is not). *)
Theorem skipped_iff (p : Path) :
  skipped p = true <->
  In "target" (parts p) \/
  In "test" (parts p) \/
  (exists pre post, name p = (pre ++ "test.rs" ++ post)%string) \/
  name p = "bindings.rs".
Proof.
  unfold skipped.
  rewrite !orb_true_iff, !tuple_contains_In, str_contains_iff, String.eqb_eq.
  tauto.
Qed.

(** ** Only [.rs] entries below the anchor are reported *)

Lemma substring_all (s : string) :
  String.substring 0 (String.length s) s = s.
Proof. induction s as [|c s IH]; simpl; congruence. Qed.

Lemma substring_split (s : string) (n : nat) :
  (n <= String.length s)%nat ->
  s = (String.substring 0 n s
       ++ String.substring n (String.length s - n) s)%string.
Proof.
  revert n; induction s as [|c s IH]; intros n Hn.
  - destruct n; reflexivity.
  - destruct n as [|n].
    + cbn [String.substring]; rewrite Nat.sub_0_r.
      change (String.length (String c s)) with (S (String.length s)).
      cbn [String.substring append]; rewrite substring_all; reflexivity.
    + simpl in Hn; simpl; f_equal; apply IH; lia.
Qed.

Lemma str_endswith_iff (s suffix : string) :
  str_endswith s suffix = true <-> exists stem, s = (stem ++ suffix)%string.
Proof.
  unfold str_endswith; rewrite andb_true_iff, Nat.leb_le, String.eqb_eq.
  split.
  - intros [Hlen E].
    exists (String.substring 0 (String.length s - String.length suffix) s).
    pose proof (substring_split s (String.length s - String.length suffix))
      as S.
    replace (String.length s - (String.length s - String.length suffix))%nat
      with (String.length suffix) in S by lia.
    rewrite E in S; apply S; lia.
  - intros [stem ->]; rewrite length_append; split; [lia|].
    replace (String.length stem + String.length suffix
             - String.length suffix)%nat
      with (String.length stem) by lia.
    clear; induction stem as [|c stem IH]; simpl.
    + apply substring_all.
    + exact IH.
Qed.

Lemma last_app_nonempty {A : Type} (l r : list A) (d : A) :
  r <> [] -> last (l ++ r) d = last r d.
Proof.
  intros Hr; induction l as [|a l IH]; auto.
  simpl; rewrite IH.
  destruct (l ++ r) eqn:E; auto.
  apply app_eq_nil in E; tauto.
Qed.

Lemma joinpath_inj (dir : Path) (r1 r2 : list string) :
  joinpath dir r1 = joinpath dir r2 -> r1 = r2.
Proof.
  unfold joinpath; intros H; injection H as H.
  eapply app_inv_head; exact H.
Qed.

Lemma rglob_rs_In (fs : FileSystem) (dir p : Path) :
  In p (rglob_rs fs dir) <->
  exists comps,
    In comps (walk fs dir) /\
    (exists stem, last comps "" = (stem ++ ".rs")%string) /\
    p = joinpath dir comps.
Proof.
  unfold rglob_rs; rewrite in_map_iff; split.
  - intros (comps & <- & H); apply filter_In in H; destruct H as [H E].
    apply str_endswith_iff in E; eauto.
  - intros (comps & H & E & ->); exists comps; split; auto.
    apply filter_In; split; auto; apply str_endswith_iff, E.
Qed.

Lemma rs_name_nonempty (comps : list string) (stem : string) :
  last comps "" = (stem ++ ".rs")%string -> comps <> [].
Proof. intros E ->; destruct stem; discriminate E. Qed.

(** X2. An entry is in the result list exactly when it is the relative
    path and the line count of an entry of the tree whose name ends in
    [.rs], that is not skipped, that can be read, and that has at least
    [T] lines. *)
Theorem reported_iff (fs : FileSystem) (T : Z) (e : entry) :
  exists l,
    scan fs T = Ok l /\
    (In e l <->
     exists comps content,
       In comps (walk fs (root_of fs)) /\
       (exists stem, last comps "" = (stem ++ ".rs")%string) /\
       skipped (joinpath (root_of fs) comps) = false /\
       read_text fs (joinpath (root_of fs) comps) = Ok content /\
       T <= loc_of content /\
       e = (mkPath "" comps, loc_of content)).
Proof.
  exists (large_files fs T); split; [apply scan_large_files|].
  rewrite large_files_In; split.
  - intros (p & Hp & K).
    apply rglob_rs_In in Hp; destruct Hp as (comps & Hw & Hrs & ->).
    apply kept_Some in K; destruct K as (Hs & (content & R & L) & HT & Rel).
    rewrite relative_to_joinpath in Rel; injection Rel as Rel.
    exists comps, content; repeat split; auto; try congruence.
    destruct e; simpl in *; congruence.
  - intros (comps & content & Hw & Hrs & Hs & R & HT & ->).
    exists (joinpath (root_of fs) comps); split.
    + apply rglob_rs_In; eauto.
    + unfold kept; rewrite Hs, R, relative_to_joinpath.
      apply Z.leb_le in HT; rewrite HT; reflexivity.
Qed.

(** X3. Every reported path is relative, has at least one component,
    and has a name that ends in [.rs]. *)
Theorem reported_paths_are_rs (fs : FileSystem) (T : Z) :
  exists l,
    scan fs T = Ok l /\
    Forall (fun e =>
              anchor (fst e) = "" /\
              tail (fst e) <> [] /\
              exists stem, name (fst e) = (stem ++ ".rs")%string) l.
Proof.
  exists (large_files fs T); split; [apply scan_large_files|].
  apply Forall_forall; intros e He.
  apply large_files_In in He; destruct He as (p & Hp & K).
  apply rglob_rs_In in Hp; destruct Hp as (comps & _ & [stem Hrs] & ->).
  apply kept_Some in K; destruct K as (_ & _ & _ & Rel).
  rewrite relative_to_joinpath in Rel; injection Rel as <-; simpl.
  pose proof (rs_name_nonempty _ _ Hrs).
  unfold name; simpl; eauto.
Qed.

(** ** How many entries *)

Lemma collect_full_paths (fs : FileSystem) (root : Path) (T : Z)
    (comps : list (list string)) :
  map (full_path root) (collect fs root T (map (joinpath root) comps)) =
  filter (qualifies fs T) (map (joinpath root) comps).
Proof.
  induction comps as [|c comps IH]; simpl; auto.
  unfold kept, qualifies, line_count.
  destruct (skipped (joinpath root c)); simpl; auto.
  destruct (read_text fs (joinpath root c)) as [content|]; auto.
  destruct (T <=? loc_of content); auto.
  rewrite relative_to_joinpath; simpl; rewrite IH; reflexivity.
Qed.

Lemma Permutation_map_joinpath (root : Path) (l : list Path) :
  Forall (fun p => exists c, p = joinpath root c) l ->
  exists comps, l = map (joinpath root) comps.
Proof.
  induction 1 as [|p l [c ->] _ [comps ->]].
  - exists []; reflexivity.
  - exists (c :: comps); reflexivity.
Qed.

Lemma Permutation_filter {A : Type} (f : A -> bool) (l l' : list A) :
  Permutation l l' -> Permutation (filter f l) (filter f l').
Proof.
  induction 1; simpl; auto.
  - destruct (f x); auto.
  - destruct (f x), (f y); auto; apply perm_swap.
  - etransitivity; eauto.
Qed.

Lemma large_files_perm (fs : FileSystem) (T : Z) :
  Permutation (map (full_path (root_of fs)) (large_files fs T))
              (filter (qualifies fs T) (rglob_rs fs (root_of fs))).
Proof.
  unfold large_files, sort_key.
  rewrite sorted_perm.
  destruct (Permutation_map_joinpath (root_of fs)
              (sorted path_lt (rglob_rs fs (root_of fs))))
    as [comps E].
  { apply sorted_Forall, Forall_forall; intros p Hp.
    apply rglob_rs_joinpath in Hp; exact Hp. }
  rewrite E, collect_full_paths, <- E.
  apply Permutation_filter, sorted_perm.
Qed.

(** X4. The reported files are, up to order, the candidates that are
    not skipped, can be read and have at least [T] lines, each as often
    as the tree lists it; the number in the header is their number. *)
Theorem reported_candidates (fs : FileSystem) (T : Z) :
  exists l,
    scan fs T = Ok l /\
    Permutation (map (full_path (root_of fs)) l)
                (filter (qualifies fs T) (rglob_rs fs (root_of fs))) /\
    List.length l =
      List.length (filter (qualifies fs T) (rglob_rs fs (root_of fs))).
Proof.
  exists (large_files fs T); split; [apply scan_large_files|].
  pose proof (large_files_perm fs T) as P.
  split; [exact P|].
  rewrite <- (Permutation_length P), length_map; reflexivity.
Qed.

(** ** Lines of a text *)

Lemma splitlines_from_break (cur : text) (c : codepoint) (s : text) :
  is_linebreak c = true -> c <> CR ->
  splitlines_from cur (c :: s) = rev cur :: splitlines_from [] s.
Proof.
  intros B HC; simpl; rewrite B.
  destruct (N.eqb_spec c CR); [contradiction|].
  destruct s; reflexivity.
Qed.

Lemma splitlines_from_char (cur : text) (c : codepoint) (s : text) :
  is_linebreak c = false ->
  splitlines_from cur (c :: s) = splitlines_from (c :: cur) s.
Proof. intros B; simpl; rewrite B; reflexivity. Qed.

Lemma splitlines_from_CR (cur : text) (d : codepoint) (s : text) :
  d <> LF ->
  splitlines_from cur (CR :: d :: s) = rev cur :: splitlines_from [] (d :: s).
Proof.
  intros HD.
  change (splitlines_from cur (CR :: d :: s))
    with (rev cur :: if (CR =? CR)%N && (d =? LF)%N
                     then splitlines_from [] s
                     else splitlines_from [] (d :: s)).
  destruct (N.eqb_spec d LF); [contradiction | reflexivity].
Qed.

Lemma splitlines_from_universal (n : nat) :
  forall (s cur : text),
    (List.length s <= n)%nat ->
    splitlines_from cur (universal_newlines s) = splitlines_from cur s.
Proof.
  induction n as [|n IH]; intros [|c s] cur Hn; simpl in Hn;
    try reflexivity; try lia.
  cbn [universal_newlines].
  destruct (N.eqb_spec c CR) as [->|HC].
  - rewrite splitlines_from_break by (reflexivity || discriminate).
    destruct s as [|d s'].
    + reflexivity.
    + destruct (N.eqb_spec d LF) as [->|HD].
      * rewrite IH by (simpl in *; lia); reflexivity.
      * rewrite IH by (simpl in *; lia).
        symmetry; apply splitlines_from_CR, HD.
  - destruct (is_linebreak c) eqn:B.
    + rewrite !splitlines_from_break by assumption.
      rewrite IH by lia; reflexivity.
    + rewrite !splitlines_from_char by assumption.
      apply IH; lia.
Qed.


Lemma universal_newlines_CR (n : nat) :
  forall s : text, (List.length s <= n)%nat -> ~ In CR (universal_newlines s).
Proof.
  induction n as [|n IH]; intros [|c s] Hn; simpl in Hn; try lia;
    try (intros []).
  cbn [universal_newlines].
  destruct (N.eqb_spec c CR) as [->|HC].
  - destruct s as [|d s']; [intros [H|[]]; discriminate H|].
    destruct (N.eqb_spec d LF).
    + intros [H|H]; [discriminate H|].
      revert H; apply IH; simpl in *; lia.
    + intros [H|H]; [discriminate H|].
      revert H; apply IH; simpl in *; lia.
  - intros [H|H]; [congruence|].
    revert H; apply IH; lia.
Qed.

(** The last line is open when the text does not end in a boundary. *)
Lemma splitlines_from_count (s cur : text) :
  ~ In CR s ->
  List.length (splitlines_from cur s) =
  (count_breaks s +
   match s, cur with
   | [], [] => 0
   | [], _ :: _ => 1
   | _ :: _, _ => if is_linebreak (last s LF) then 0 else 1
   end)%nat.
Proof.
  revert cur; induction s as [|c s IH]; intros cur H.
  - destruct cur; reflexivity.
  - assert (Hs : ~ In CR s) by (intros X; apply H; right; exact X).
    assert (HC : c <> CR) by (intros ->; apply H; left; reflexivity).
    unfold count_breaks; cbn [filter].
    destruct (is_linebreak c) eqn:B.
    + rewrite splitlines_from_break by assumption.
      cbn [List.length]; rewrite (IH [] Hs); unfold count_breaks.
      destruct s as [|d s']; [simpl; rewrite B; reflexivity|].
      reflexivity.
    + rewrite splitlines_from_char by assumption.
      rewrite (IH (c :: cur) Hs); unfold count_breaks.
      destruct s as [|d s']; [simpl; rewrite B; reflexivity|].
      reflexivity.
Qed.

(** X6. The text that the script reads has no carriage return, and its
    line count is the number of its line-boundary characters, plus one
    when it is not empty and does not end in a boundary. *)
Theorem line_count_is_boundaries (s : text) :
  let content := universal_newlines s in
  ~ In CR content /\
  loc_of content =
  Z.of_nat (count_breaks content
            + if is_linebreak (last content LF) then 0 else 1).
Proof.
  intros content.
  assert (H : ~ In CR content)
    by (apply (universal_newlines_CR (List.length s)); lia).
  split; [exact H|].
  unfold loc_of, splitlines; rewrite (splitlines_from_count _ [] H).
  destruct content; reflexivity.
Qed.

Lemma splitlines_from_length (n : nat) :
  forall (s cur : text),
    (List.length s <= n)%nat ->
    (List.length (splitlines_from cur s) <=
     List.length s + match cur with [] => 0 | _ :: _ => 1 end)%nat.
Proof.
  induction n as [|n IH]; intros [|c s] cur Hn; simpl in Hn; try lia.
  - destruct cur; simpl; lia.
  - destruct cur; simpl; lia.
  - cbn [splitlines_from].
    destruct (is_linebreak c).
    + destruct s as [|d s'].
      * simpl; lia.
      * destruct ((c =? CR)%N && (d =? LF)%N).
        -- pose proof (IH s' [] ltac:(simpl in *; lia)); simpl in *; lia.
        -- pose proof (IH (d :: s') [] ltac:(simpl in *; lia)); simpl in *; lia.
    + pose proof (IH s (c :: cur) ltac:(lia)); simpl in *.
      destruct cur; lia.
Qed.

Lemma splitlines_from_open (s cur : text) :
  cur <> [] -> splitlines_from cur s <> [].
Proof.
  revert cur; induction s as [|c s IH]; intros cur H; simpl.
  - destruct cur; [contradiction | discriminate].
  - destruct (is_linebreak c); [discriminate|].
    apply IH; discriminate.
Qed.

(** X7. A text has no more lines than characters, and it has no line
    exactly when it is empty. *)
Theorem line_count_bounds (content : text) :
  0 <= loc_of content <= Z.of_nat (List.length content) /\
  (loc_of content = 0 <-> content = []).
Proof.
  unfold loc_of, splitlines; split.
  - pose proof (splitlines_from_length (List.length content) content []
                  (le_n _)) as H.
    cbn iota in H; lia.
  - split.
    + destruct content as [|c s]; auto.
      intros H; exfalso.
      assert (E : splitlines_from [] (c :: s) = [])
        by (destruct (splitlines_from [] (c :: s)); [auto | discriminate H]).
      revert E; simpl.
      destruct (is_linebreak c); [discriminate|].
      apply splitlines_from_open; discriminate.
    + intros ->; reflexivity.
Qed.

(** ** Sorted lists are fixed and unique *)

Section SortedUnique.
Context {A : Type} (lt : A -> A -> bool).
Hypothesis lt_asym : forall a b, lt a b = true -> lt b a = false.
Hypothesis ge_trans :
  forall a b c, lt b a = false -> lt c b = false -> lt c a = false.

Lemma sorted_fixed (l : list A) :
  StronglySorted (fun a b => lt b a = false) l -> sorted lt l = l.
Proof.
  induction 1 as [|x l Hl IH Hx]; simpl; auto.
  rewrite IH; apply insort_first, Hx.
Qed.

Lemma sorted_idem (l : list A) : sorted lt (sorted lt l) = sorted lt l.
Proof. apply sorted_fixed, sorted_sorted; assumption. Qed.

Lemma sorted_unique (l1 l2 : list A) :
  (forall a b, In a l1 -> In b l1 ->
               lt a b = false -> lt b a = false -> a = b) ->
  StronglySorted (fun a b => lt b a = false) l1 ->
  StronglySorted (fun a b => lt b a = false) l2 ->
  Permutation l1 l2 ->
  l1 = l2.
Proof.
  intros Hanti H1; revert l2.
  induction H1 as [|a t1 Ht1 IH Ha]; intros l2 H2 P.
  - apply Permutation_nil in P; congruence.
  - destruct H2 as [|b t2 Ht2 Hb].
    + apply Permutation_sym, Permutation_nil in P; discriminate.
    + assert (E : a = b).
      { assert (Ia : In a (b :: t2))
          by (eapply Permutation_in; [exact P | left; reflexivity]).
        assert (Ib : In b (a :: t1))
          by (eapply Permutation_in;
              [apply Permutation_sym, P | left; reflexivity]).
        destruct Ia as [<-|Ia]; auto.
        destruct Ib as [->|Ib]; auto.
        rewrite Forall_forall in Ha, Hb.
        apply Hanti; simpl; auto. }
      subst b; f_equal.
      apply IH; auto.
      * intros x y Hx Hy; apply Hanti; simpl; auto.
      * eapply Permutation_cons_inv; exact P.
Qed.

Lemma sorted_of_perm (l l' : list A) :
  (forall a b, In a l -> In b l ->
               lt a b = false -> lt b a = false -> a = b) ->
  Permutation l l' ->
  sorted lt l = sorted lt l'.
Proof.
  intros Hanti P; apply sorted_unique.
  - intros a b Ia Ib; apply Hanti; apply (sorted_In lt); assumption.
  - apply sorted_sorted; assumption.
  - apply sorted_sorted; assumption.
  - rewrite !sorted_perm; exact P.
Qed.
End SortedUnique.

(** ** The order in which the tree is listed *)

Lemma path_lt_antisym_below (root : Path) (c1 c2 : list string) :
  path_lt (joinpath root c1) (joinpath root c2) = false ->
  path_lt (joinpath root c2) (joinpath root c1) = false ->
  joinpath root c1 = joinpath root c2.
Proof.
  unfold path_lt; rewrite !parts_joinpath.
  rewrite (cmp_opp _ parts_compare_total (parts root ++ c1) (parts root ++ c2)).
  destruct (parts_compare (parts root ++ c1) (parts root ++ c2)) eqn:E;
    simpl; try discriminate.
  intros _ _.
  apply (cmp_eq _ parts_compare_total) in E.
  apply app_inv_head in E; congruence.
Qed.

Lemma collect_with_walk (fs : FileSystem) (walk' : Path -> list (list string))
    (root : Path) (T : Z) (paths : list Path) :
  collect (with_walk fs walk') root T paths = collect fs root T paths.
Proof.
  induction paths as [|p paths IH]; simpl; auto.
  rewrite IH; reflexivity.
Qed.

Lemma large_files_with_walk (fs : FileSystem)
    (walk' : Path -> list (list string)) (T : Z) :
  Permutation (walk fs (root_of fs)) (walk' (root_of fs)) ->
  large_files (with_walk fs walk') T = large_files fs T.
Proof.
  intros P; unfold large_files.
  change (root_of (with_walk fs walk')) with (root_of fs).
  rewrite collect_with_walk.
  do 2 f_equal; symmetry.
  apply sorted_of_perm.
  - apply path_lt_asym.
  - apply path_ge_trans.
  - intros a b Ha Hb.
    apply rglob_rs_joinpath in Ha, Hb.
    destruct Ha as [c1 ->], Hb as [c2 ->].
    apply path_lt_antisym_below.
  - unfold rglob_rs; simpl.
    apply Permutation_map, Permutation_filter, P.
Qed.

(** X8. The output does not depend on the order in which the operating
    system lists the tree: a tree with the same entries in another order
    gives the same result list and the same report. *)
Theorem listing_order_irrelevant (fs : FileSystem)
    (walk' : Path -> list (list string)) (T : Z) :
  Permutation (walk fs (root_of fs)) (walk' (root_of fs)) ->
  scan (with_walk fs walk') T = scan fs T /\
  main (with_walk fs walk') (Some T) = main fs (Some T).
Proof.
  intros P.
  rewrite !scan_large_files, !main_report, large_files_with_walk by exact P.
  split; reflexivity.
Qed.

Lemma listing_order_irrelevant_witness :
  scan (with_walk fs_sizes (fun d => rev (walk fs_sizes d))) 500
    = scan fs_sizes 500 /\
  main (with_walk fs_sizes (fun d => rev (walk fs_sizes d))) (Some 500)
    = main fs_sizes (Some 500).
Proof.
  apply (listing_order_irrelevant fs_sizes
           (fun d => rev (walk fs_sizes d)) 500).
  apply Permutation_rev.
Defined.

(** X9. The result list is already in the order of its sort: sorting it
    again by descending line count leaves it as it is. *)
Theorem result_list_resorted (fs : FileSystem) (T : Z) :
  exists l,
    scan fs T = Ok l /\
    sort_key (fun x => - snd x) l = l.
Proof.
  exists (large_files fs T); split; [apply scan_large_files|].
  unfold large_files, sort_key; apply sorted_idem.
  - intros a b; apply key_lt_asym.
  - intros a b c; apply key_ge_trans.
Qed.

Lemma NoDup_map_injective {A B : Type} (f : A -> B) (l : list A) :
  (forall a b, f a = f b -> a = b) -> NoDup l -> NoDup (map f l).
Proof.
  intros Hf; induction 1 as [|a l Ha Hl IH]; simpl; constructor; auto.
  rewrite in_map_iff; intros (b & E & Hb).
  apply Hf in E; subst b; contradiction.
Qed.

(** X10. When the tree lists no entry twice, no path is reported
    twice. *)
Theorem reported_once (fs : FileSystem) (T : Z) :
  NoDup (walk fs (root_of fs)) ->
  exists l, scan fs T = Ok l /\ NoDup (map fst l).
Proof.
  intros H.
  exists (large_files fs T); split; [apply scan_large_files|].
  assert (N : NoDup (map (full_path (root_of fs)) (large_files fs T))).
  { eapply Permutation_NoDup;
      [apply Permutation_sym, large_files_perm|].
    apply NoDup_filter; unfold rglob_rs.
    apply NoDup_map_injective.
    - intros c1 c2; apply joinpath_inj.
    - apply NoDup_filter, H. }
  assert (E : map (full_path (root_of fs)) (large_files fs T) =
              map (fun r => joinpath (root_of fs) (tail r))
                  (map fst (large_files fs T)))
    by (rewrite map_map; reflexivity).
  rewrite E in N; apply NoDup_map_inv in N; exact N.
Qed.

Lemma reported_once_witness :
  exists l, scan fs_sizes 500 = Ok l /\ NoDup (map fst l).
Proof.
  apply (reported_once fs_sizes 500).
  vm_compute.
  repeat (constructor; [simpl; intuition discriminate|]).
  constructor.
Defined.

(** ** What the script reads *)

Lemma kept_line_count (fs : FileSystem) (root : Path) (T : Z) (p : Path) :
  kept fs root T p =
  if skipped p then None
  else
    match line_count fs p with
    | Some n =>
        if T <=? n then
          match relative_to p root with
          | Ok rel => Some (rel, n)
          | Raise _ => None
          end
        else None
    | None => None
    end.
Proof.
  unfold kept, line_count.
  destruct (skipped p); auto.
  destruct (read_text fs p); reflexivity.
Qed.

Lemma collect_ext (fs fs' : FileSystem) (root : Path) (T : Z)
    (paths : list Path) :
  (forall p, In p paths -> kept fs' root T p = kept fs root T p) ->
  collect fs' root T paths = collect fs root T paths.
Proof.
  induction paths as [|p paths IH]; intros H; simpl; auto.
  rewrite (H p (or_introl eq_refl)), IH; auto.
  intros q Hq; apply H; right; exact Hq.
Qed.

(** X11. The script learns nothing from a file but whether it can be
    read and how many lines it has, and it does not read a skipped file:
    two trees whose candidates outside the skipped ones agree on that
    give the same result list and the same report. *)
Theorem only_line_counts_matter (fs : FileSystem)
    (read' : Path -> result text) (T : Z) :
  (forall p,
      In p (rglob_rs fs (root_of fs)) ->
      skipped p = false ->
      line_count (with_read fs read') p = line_count fs p) ->
  scan (with_read fs read') T = scan fs T /\
  main (with_read fs read') (Some T) = main fs (Some T).
Proof.
  intros H.
  assert (E : large_files (with_read fs read') T = large_files fs T).
  { unfold large_files.
    change (root_of (with_read fs read')) with (root_of fs).
    change (rglob_rs (with_read fs read') (root_of fs))
      with (rglob_rs fs (root_of fs)).
    f_equal; apply collect_ext; intros p Hp.
    apply (proj1 (sorted_In path_lt p _)) in Hp.
    rewrite !kept_line_count.
    destruct (skipped p) eqn:S; auto.
    rewrite (H p Hp S); reflexivity. }
  rewrite !scan_large_files, !main_report, E; split; reflexivity.
Qed.

Lemma only_line_counts_matter_witness :
  scan (with_read fs_sizes read_sizes_altered) 500 = scan fs_sizes 500 /\
  main (with_read fs_sizes read_sizes_altered) (Some 500)
    = main fs_sizes (Some 500).
Proof.
  apply (only_line_counts_matter fs_sizes read_sizes_altered 500).
  intros p Hp Hs; vm_compute in Hp.
  repeat (destruct Hp as [<-|Hp];
          [first [vm_compute; reflexivity
                 | vm_compute in Hs; discriminate Hs]|]).
  destruct Hp.
Defined.

(** ** Thresholds at the edges *)

Lemma qualifies_nonpositive (fs : FileSystem) (T : Z) (p : Path) :
  T <= 0 -> qualifies fs T p = negb (skipped p) && readable fs p.
Proof.
  intros HT; unfold qualifies, line_count, readable.
  destruct (read_text fs p) as [content|]; auto.
  f_equal; apply Z.leb_le; unfold loc_of; lia.
Qed.

(** X12. With a threshold of zero or less, the report lists every
    candidate that is not skipped and can be read, empty files
    included. *)
Theorem nonpositive_threshold_lists_all (fs : FileSystem) (T : Z) :
  T <= 0 ->
  exists l,
    scan fs T = Ok l /\
    Permutation
      (map (full_path (root_of fs)) l)
      (filter (fun p => negb (skipped p) && readable fs p)
              (rglob_rs fs (root_of fs))).
Proof.
  intros HT.
  exists (large_files fs T); split; [apply scan_large_files|].
  rewrite large_files_perm.
  erewrite filter_ext; [reflexivity|].
  intros p; apply qualifies_nonpositive, HT.
Qed.

Lemma nonpositive_threshold_lists_all_witness :
  exists l,
    scan fs_sizes 0 = Ok l /\
    Permutation
      (map (full_path (root_of fs_sizes)) l)
      (filter (fun p => negb (skipped p) && readable fs_sizes p)
              (rglob_rs fs_sizes (root_of fs_sizes))).
Proof.
  apply (nonpositive_threshold_lists_all fs_sizes 0); lia.
Defined.

(** X13. A file with fewer characters than the threshold is never
    reported; in particular an empty file is not reported at any
    threshold of 1 or more. *)
Theorem short_files_not_reported (fs : FileSystem) (T : Z)
    (p rel : Path) (content : text) :
  read_text fs p = Ok content ->
  Z.of_nat (List.length content) < T ->
  relative_to p (root_of fs) = Ok rel ->
  exists l, scan fs T = Ok l /\ ~ In rel (map fst l).
Proof.
  intros R Hlen Hrel.
  exists (large_files fs T); split; [apply scan_large_files|].
  intros Hin; apply in_map_iff in Hin; destruct Hin as (e & <- & He).
  apply large_files_In in He; destruct He as (q & _ & K).
  apply kept_Some in K; destruct K as (_ & (content' & R' & L) & HT & Hq).
  apply relative_to_Ok in Hrel, Hq.
  destruct Hrel as [_ ->], Hq as [_ ->].
  assert (content' = content) by congruence; subst content'.
  pose proof (splitlines_from_length (List.length content) content []
                (le_n _)) as B.
  cbn iota in B; unfold loc_of, splitlines in L; lia.
Qed.

Lemma short_files_not_reported_witness :
  exists l,
    scan fs_ties 10 = Ok l /\ ~ In (mkPath "" ["a"; "x.rs"]) (map fst l).
Proof.
  apply (short_files_not_reported fs_ties 10
           (mkPath "/" ["proj"; "a"; "x.rs"]) (mkPath "" ["a"; "x.rs"])
           (text_of_string "fn g() {}")).
  - reflexivity.
  - vm_compute; reflexivity.
  - reflexivity.
Defined.


(** ** Lines and newline segments *)

Lemma splitlines_from_CRLF (cur s : text) :
  splitlines_from cur (CR :: LF :: s) = rev cur :: splitlines_from [] s.
Proof. reflexivity. Qed.

Lemma splitlines_from_nil (cur : text) :
  List.length (splitlines_from cur []) = open_line cur.
Proof. destruct cur; reflexivity. Qed.

Lemma split_newline_from_nil (cur : text) :
  List.length (split_newline_from cur []) = open_line cur.
Proof. destruct cur; reflexivity. Qed.

Lemma split_newline_from_LF (cur s : text) :
  split_newline_from cur (LF :: s) = rev cur :: split_newline_from [] s.
Proof. reflexivity. Qed.

Lemma split_newline_from_char (cur : text) (c : codepoint) (s : text) :
  c <> LF -> split_newline_from cur (c :: s) = split_newline_from (c :: cur) s.
Proof.
  intros H; simpl; destruct (N.eqb_spec c LF); [contradiction | reflexivity].
Qed.

Lemma head_shape_all (s : text) : head_shape s.
Proof.
  destruct s as [|c s]; [apply shape_nil|].
  destruct (N.eqb_spec c CR) as [->|HC].
  - destruct s as [|d s]; [apply shape_cr_last|].
    destruct (N.eqb_spec d LF) as [->|HD];
      [apply shape_crlf | apply shape_cr; exact HD].
  - destruct (N.eqb_spec c LF) as [->|HL]; [apply shape_lf|].
    destruct (is_linebreak c) eqn:B;
      [apply shape_other | apply shape_char]; auto.
Qed.

Lemma char_not_LF (c : codepoint) : is_linebreak c = false -> c <> LF.
Proof. intros B ->; discriminate B. Qed.

Lemma stray_boundary_other (c : codepoint) (s : text) :
  is_linebreak c = true -> c <> CR -> c <> LF ->
  stray_boundary (c :: s) = match s with [] => false | _ :: _ => true end.
Proof.
  intros B HC HL; cbn [stray_boundary].
  destruct (N.eqb_spec c CR); [contradiction|].
  destruct (N.eqb_spec c LF); [contradiction|].
  rewrite B; reflexivity.
Qed.

Lemma stray_boundary_char (c : codepoint) (s : text) :
  is_linebreak c = false -> stray_boundary (c :: s) = stray_boundary s.
Proof.
  intros B; cbn [stray_boundary].
  destruct (N.eqb_spec c CR) as [->|]; [discriminate B|].
  rewrite B, orb_true_r; reflexivity.
Qed.

Lemma stray_boundary_CR (d : codepoint) (s : text) :
  d <> LF -> stray_boundary (CR :: d :: s) = true.
Proof.
  intros HD; cbn [stray_boundary].
  change ((CR =? CR)%N) with true; cbn iota.
  destruct (N.eqb_spec d LF); [contradiction | reflexivity].
Qed.

(** The script never finds fewer lines than a split on newline finds
    segments. *)
Lemma lines_ge_segments (n : nat) :
  forall (s cur cur' : text),
    (List.length s <= n)%nat ->
    (open_line cur <= open_line cur')%nat ->
    (List.length (split_newline_from cur' s) + open_line cur <=
     List.length (splitlines_from cur s) + open_line cur')%nat.
Proof.
  induction n as [|n IH]; intros s cur cur' Hn Ho.
  - destruct s; [|simpl in Hn; lia].
    rewrite splitlines_from_nil, split_newline_from_nil; lia.
  - destruct (head_shape_all s) as [|s| |d s HD|s|c s B HC HL|c s B];
      simpl in Hn.
    + rewrite splitlines_from_nil, split_newline_from_nil; lia.
    + rewrite splitlines_from_CRLF.
      rewrite split_newline_from_char, split_newline_from_LF by discriminate.
      pose proof (IH s [] [] ltac:(lia) (le_n _)); simpl in *; lia.
    + simpl; lia.
    + rewrite splitlines_from_CR by exact HD.
      rewrite split_newline_from_char by discriminate.
      pose proof (IH (d :: s) [] (CR :: cur')
                    ltac:(simpl; lia) ltac:(simpl; lia)).
      simpl in *; lia.
    + rewrite splitlines_from_break by (reflexivity || discriminate).
      rewrite split_newline_from_LF.
      pose proof (IH s [] [] ltac:(lia) (le_n _)); simpl in *; lia.
    + rewrite splitlines_from_break by assumption.
      rewrite split_newline_from_char by exact HL.
      pose proof (IH s [] (c :: cur') ltac:(lia) ltac:(simpl; lia)).
      simpl in *; lia.
    + rewrite splitlines_from_char by exact B.
      rewrite split_newline_from_char by (apply char_not_LF, B).
      pose proof (IH s (c :: cur) (c :: cur') ltac:(lia) ltac:(simpl; lia)).
      simpl in *; lia.
Qed.

(** Once the split on newline has an open segment that the script has
    closed, it cannot find more segments in the rest than the script
    finds lines. *)
Lemma lines_after_stray (s cur' : text) :
  s <> [] -> cur' <> [] ->
  (List.length (split_newline_from cur' s) <=
   List.length (splitlines_from [] s))%nat.
Proof.
  intros Hs Hc.
  assert (O : open_line cur' = 1%nat) by (destruct cur'; [contradiction | reflexivity]).
  destruct (head_shape_all s) as [|s| |d s HD|s|c s B HC HL|c s B].
  - contradiction.
  - rewrite splitlines_from_CRLF.
    rewrite split_newline_from_char, split_newline_from_LF by discriminate.
    pose proof (lines_ge_segments (List.length s) s [] [] (le_n _) (le_n _)).
    simpl in *; lia.
  - simpl; lia.
  - rewrite splitlines_from_CR by exact HD.
    rewrite split_newline_from_char by discriminate.
    pose proof (lines_ge_segments (List.length (d :: s)) (d :: s) []
                  (CR :: cur') (le_n _) ltac:(simpl; lia)).
    simpl in *; lia.
  - rewrite splitlines_from_break by (reflexivity || discriminate).
    rewrite split_newline_from_LF.
    pose proof (lines_ge_segments (List.length s) s [] [] (le_n _) (le_n _)).
    simpl in *; lia.
  - rewrite splitlines_from_break by assumption.
    rewrite split_newline_from_char by exact HL.
    pose proof (lines_ge_segments (List.length s) s [] (c :: cur')
                  (le_n _) ltac:(simpl; lia)).
    simpl in *; lia.
  - rewrite splitlines_from_char by exact B.
    rewrite split_newline_from_char by (apply char_not_LF, B).
    pose proof (lines_ge_segments (List.length s) s [c] (c :: cur')
                  (le_n _) ltac:(simpl; lia)).
    simpl in *; lia.
Qed.

(** A stray boundary puts the script ahead. *)
Lemma lines_gt_segments (n : nat) :
  forall (s cur cur' : text),
    (List.length s <= n)%nat ->
    (open_line cur <= open_line cur')%nat ->
    stray_boundary s = true ->
    (List.length (split_newline_from cur' s) + open_line cur <
     List.length (splitlines_from cur s) + open_line cur')%nat.
Proof.
  induction n as [|n IH]; intros s cur cur' Hn Ho Hstray.
  - destruct s; [discriminate Hstray | simpl in Hn; lia].
  - destruct (head_shape_all s) as [|s| |d s HD|s|c s B HC HL|c s B];
      simpl in Hn.
    + discriminate Hstray.
    + rewrite splitlines_from_CRLF.
      rewrite split_newline_from_char, split_newline_from_LF by discriminate.
      pose proof (IH s [] [] ltac:(lia) (le_n _) Hstray); simpl in *; lia.
    + discriminate Hstray.
    + rewrite splitlines_from_CR by exact HD.
      rewrite split_newline_from_char by discriminate.
      pose proof (lines_after_stray (d :: s) (CR :: cur')
                    ltac:(discriminate) ltac:(discriminate)).
      simpl in *; lia.
    + rewrite splitlines_from_break by (reflexivity || discriminate).
      rewrite split_newline_from_LF.
      pose proof (IH s [] [] ltac:(lia) (le_n _) Hstray); simpl in *; lia.
    + rewrite stray_boundary_other in Hstray by assumption.
      rewrite splitlines_from_break by assumption.
      rewrite split_newline_from_char by exact HL.
      pose proof (lines_after_stray s (c :: cur')) as H.
      destruct s as [|d s]; [discriminate Hstray|].
      specialize (H ltac:(discriminate) ltac:(discriminate)).
      simpl in *; lia.
    + rewrite stray_boundary_char in Hstray by exact B.
      rewrite splitlines_from_char by exact B.
      rewrite split_newline_from_char by (apply char_not_LF, B).
      pose proof (IH s (c :: cur) (c :: cur') ltac:(lia) ltac:(simpl; lia)
                    Hstray).
      simpl in *; lia.
Qed.

(** Without a stray boundary the two counts agree. *)
Lemma lines_eq_segments (n : nat) :
  forall (s cur cur' : text),
    (List.length s <= n)%nat ->
    open_line cur = open_line cur' ->
    stray_boundary s = false ->
    List.length (splitlines_from cur s) =
    List.length (split_newline_from cur' s).
Proof.
  induction n as [|n IH]; intros s cur cur' Hn Ho Hstray.
  - destruct s; [|simpl in Hn; lia].
    rewrite splitlines_from_nil, split_newline_from_nil; exact Ho.
  - destruct (head_shape_all s) as [|s| |d s HD|s|c s B HC HL|c s B];
      simpl in Hn.
    + rewrite splitlines_from_nil, split_newline_from_nil; exact Ho.
    + rewrite splitlines_from_CRLF.
      rewrite split_newline_from_char, split_newline_from_LF by discriminate.
      simpl; f_equal; apply IH; auto; lia.
    + reflexivity.
    + rewrite stray_boundary_CR in Hstray by exact HD; discriminate.
    + rewrite splitlines_from_break by (reflexivity || discriminate).
      rewrite split_newline_from_LF.
      simpl; f_equal; apply IH; auto; lia.
    + rewrite stray_boundary_other in Hstray by assumption.
      destruct s; [|discriminate Hstray].
      rewrite splitlines_from_break by assumption.
      rewrite split_newline_from_char by exact HL.
      reflexivity.
    + rewrite stray_boundary_char in Hstray by exact B.
      rewrite splitlines_from_char by exact B.
      rewrite split_newline_from_char by (apply char_not_LF, B).
      apply IH; auto; lia.
Qed.

Lemma splitlines_from_as_newline (t cur : text) :
  ~ In CR t ->
  splitlines_from cur t = split_newline_from cur (map as_newline t).
Proof.
  revert cur; induction t as [|c t IH]; intros cur H; [reflexivity|].
  assert (Ht : ~ In CR t) by (intros X; apply H; right; exact X).
  assert (HC : c <> CR) by (intros ->; apply H; left; reflexivity).
  cbn [map]; unfold as_newline at 1.
  destruct (is_linebreak c) eqn:B.
  - rewrite splitlines_from_break by assumption.
    rewrite split_newline_from_LF, IH by exact Ht; reflexivity.
  - rewrite splitlines_from_char by exact B.
    rewrite split_newline_from_char by (apply char_not_LF, B).
    apply IH, Ht.
Qed.

(** C5, as the code has it. For every file content the lines are the
    segments of a split on newline in which every line boundary of
    [str.splitlines] stands for the newline, and the line count is their
    number: an empty file has 0 lines and a last line without a boundary
    counts. The count is the one of a split on the newline character
    alone exactly when no boundary other than LF and CR LF stands before
    the last character. *)
Theorem line_count_split_on_boundaries (s : text) :
  splitlines (universal_newlines s) =
    newline_segments (boundaries_as_newlines s) /\
  loc_of (universal_newlines s) =
    Z.of_nat (List.length (newline_segments (boundaries_as_newlines s))) /\
  (loc_of (universal_newlines s) =
     Z.of_nat (List.length (newline_segments s))
   <-> stray_boundary s = false).
Proof.
  assert (E : splitlines (universal_newlines s) =
              newline_segments (boundaries_as_newlines s)).
  { apply splitlines_from_as_newline.
    apply (universal_newlines_CR (List.length s)); lia. }
  split; [exact E|].
  split; [unfold loc_of; rewrite E; reflexivity|].
  unfold loc_of, splitlines, newline_segments.
  rewrite (splitlines_from_universal (List.length s)) by lia.
  split.
  - intros H; destruct (stray_boundary s) eqn:S; [|reflexivity].
    pose proof (lines_gt_segments (List.length s) s [] [] (le_n _) (le_n _) S).
    simpl in *; lia.
  - intros S; f_equal.
    apply (lines_eq_segments (List.length s)); auto.
Qed.

Example line_count_crlf :
  stray_boundary crlf_text = false /\
  loc_of (universal_newlines crlf_text) = 2 /\
  List.length (newline_segments crlf_text) = 2%nat.
Proof. repeat split; reflexivity. Qed.
